(** * Medusir 3.2 backend predictive engine (src/backend.js)

    A shallow embedding of the per-instrument prediction pipeline:
    the Kalman smoother, the bounded price history, the three scoring
    models (LDF, Recency, Pairing-Frequency), the weighted fusion with
    its certainty threshold, the signal life cycle and the adaptive
    learner, followed by the properties established about them.

    Numbers.  A JavaScript number is an IEEE-754 double.  The embedding
    keeps the three special values NaN, +Infinity and -Infinity with
    their arithmetic, and takes a finite number to be the rational it
    denotes: rounding of finite results is not modelled and zero has no
    sign (a division of a non-zero number by zero takes the zero as +0).
    Integer-valued quantities that the code computes by counting
    (occurrence counts, indices, lengths) are [nat] or [Z]; they are
    exact in doubles for every array JavaScript can build. *)

From Stdlib Require Import QArith Qround Qabs ZArith List Sorted Lia Lqa
  Bool String.
From stdpp Require Import gmap strings.
Import ListNotations.

Local Open Scope Q_scope.

(** ** JavaScript numbers *)

Inductive number : Type :=
| Num (q : Q)
| PosInf
| NegInf
| NaN.

Definition of_Z (z : Z) : number := Num (inject_Z z).
Definition of_nat (n : nat) : number := of_Z (Z.of_nat n).

Definition Qlt_bool (p q : Q) : bool := negb (Qle_bool q p).

(** Same-value comparison of two numbers: finite numbers are compared as
    rationals, each special value equals itself. *)
Definition same (a b : number) : Prop :=
  match a, b with
  | Num p, Num q => p == q
  | PosInf, PosInf | NegInf, NegInf | NaN, NaN => True
  | _, _ => False
  end.

Infix "=n=" := same (at level 70, no associativity).

Definition is_finite (a : number) : bool :=
  match a with Num _ => true | _ => false end.

Definition num_opp (a : number) : number :=
  match a with
  | Num q => Num (- q)
  | PosInf => NegInf
  | NegInf => PosInf
  | NaN => NaN
  end.

(** [a + b] *)
Definition num_add (a b : number) : number :=
  match a, b with
  | NaN, _ | _, NaN => NaN
  | PosInf, NegInf | NegInf, PosInf => NaN
  | PosInf, _ | _, PosInf => PosInf
  | NegInf, _ | _, NegInf => NegInf
  | Num p, Num q => Num (p + q)
  end.

(** [a - b] *)
Definition num_sub (a b : number) : number := num_add a (num_opp b).

(** An infinity times the finite [q]: NaN when [q] is zero, else the
    infinity whose sign is the product of the two signs. *)
Definition inf_times (positive : bool) (q : Q) : number :=
  if Qeq_bool q 0 then NaN
  else if xorb positive (Qlt_bool 0 q) then NegInf else PosInf.

(** [a * b] *)
Definition num_mul (a b : number) : number :=
  match a, b with
  | NaN, _ | _, NaN => NaN
  | PosInf, PosInf | NegInf, NegInf => PosInf
  | PosInf, NegInf | NegInf, PosInf => NegInf
  | PosInf, Num q | Num q, PosInf => inf_times true q
  | NegInf, Num q | Num q, NegInf => inf_times false q
  | Num p, Num q => Num (p * q)
  end.

(** [a / b] *)
Definition num_div (a b : number) : number :=
  match a, b with
  | NaN, _ | _, NaN => NaN
  | (PosInf | NegInf), (PosInf | NegInf) => NaN
  | PosInf, Num q => if Qlt_bool q 0 then NegInf else PosInf
  | NegInf, Num q => if Qlt_bool q 0 then PosInf else NegInf
  | Num _, (PosInf | NegInf) => Num 0
  | Num p, Num q =>
      if Qeq_bool q 0 then inf_times true p else Num (p / q)
  end.

(** [a < b]; every comparison with NaN is false. *)
Definition num_lt (a b : number) : bool :=
  match a, b with
  | NaN, _ | _, NaN => false
  | _, NegInf | PosInf, _ => false
  | NegInf, _ | _, PosInf => true
  | Num p, Num q => Qlt_bool p q
  end.

(** [a <= b] *)
Definition num_le (a b : number) : bool :=
  match a, b with
  | NaN, _ | _, NaN => false
  | NegInf, _ | _, PosInf => true
  | _, NegInf | PosInf, _ => false
  | Num p, Num q => Qle_bool p q
  end.

(** [a > b] and [a >= b] *)
Definition num_gt (a b : number) : bool := num_lt b a.
Definition num_ge (a b : number) : bool := num_le b a.

(** [Math.min(a, b)] and [Math.max(a, b)]: NaN as soon as one argument is. *)
Definition Math_min (a b : number) : number :=
  match a, b with
  | NaN, _ | _, NaN => NaN
  | _, _ => if num_lt b a then b else a
  end.

Definition Math_max (a b : number) : number :=
  match a, b with
  | NaN, _ | _, NaN => NaN
  | _, _ => if num_lt a b then b else a
  end.

(** [Math.floor(a)] *)
Definition Math_floor (a : number) : number :=
  match a with
  | Num q => of_Z (Qfloor q)
  | _ => a
  end.

(** [Math.sqrt(a) < c] for a positive finite bound [c]: over the reals the
    square root of a non-negative [v] is below [c] exactly when [v < c * c];
    the square root of a negative number or of NaN is NaN, that of
    +Infinity is +Infinity, and neither is below [c]. *)
Definition sqrt_lt (a : number) (c : Q) : bool :=
  match a with
  | Num v => Qle_bool 0 v && Qlt_bool v (c * c)
  | _ => false
  end.

(** ** Configuration *)

Definition VOLATILITY_INDEXES : list (string * string) :=
  [ ("1HZ100V", "Vol 100 (1s)"); ("1HZ75V", "Vol 75 (1s)");
    ("1HZ50V", "Vol 50 (1s)"); ("1HZ25V", "Vol 25 (1s)");
    ("1HZ10V", "Vol 10 (1s)") ]%string.

Definition ANALYSIS_TICKS : nat := 100.
Definition STABILITY_ANALYSIS_TICKS : nat := 150.
Definition ENTRY_WINDOW_SECONDS : Z := 5.
Definition KALMAN_R : number := Num 0.01.
Definition KALMAN_Q : number := Num 0.1.
Definition CERTAINTY_THRESHOLD : number := Num 1.5.

(** ** Data model *)

(** The three scoring models; they name the fields of a weight set
    (['ldf'], ['recency'], ['pf']) and the entries of [topModels]. *)
Inductive model : Type := LDF | RECENCY | PF.

Module Weights.
Record t : Type := mk { ldf : number; recency : number; pf : number }.

Definition get (m : model) (w : t) : number :=
  match m with
  | LDF => ldf w
  | RECENCY => recency w
  | PF => pf w
  end.

Definition set (m : model) (v : number) (w : t) : t :=
  match m with
  | LDF => mk v (recency w) (pf w)
  | RECENCY => mk (ldf w) v (pf w)
  | PF => mk (ldf w) (recency w) v
  end.
End Weights.

Definition INITIAL_WEIGHTS : Weights.t := Weights.mk (Num 1.0) (Num 1.0) (Num 1.0).

(** A last digit as [parseInt] of one character returns it: an integer
    0..9, or NaN ([None]) when the character is not a decimal digit. *)
Definition digit : Type := option nat.

Definition valid_digit (d : digit) : Prop :=
  match d with Some n => (n < 10)%nat | None => True end.

(** [a === b] on digits: NaN differs from everything, itself included. *)
Definition digit_eqb (a b : digit) : bool :=
  match a, b with
  | Some m, Some n => Nat.eqb m n
  | _, _ => false
  end.

Module Scores.
Record t : Type :=
  mk { ldf : list number; recency : list number; pf : list number }.

Definition get (m : model) (s : t) : list number :=
  match m with
  | LDF => ldf s
  | RECENCY => recency s
  | PF => pf s
  end.
End Scores.

Module Kalman.
Record state : Type := mk { x : option number; p : number }.
End Kalman.

Module Signal.
Record t : Type :=
  mk { predictedDigit : nat; modelScores : Scores.t; entryTime : Z }.
End Signal.

Record instrument : Type := mkInstrument {
  symbol : string;
  priceHistory : list number;
  kalmanState : Kalman.state;
  weights : Weights.t;
  activeSignal : option Signal.t;
  lossStreak : Z;
  cooldownUntil : option Z
}.

(** ** Smoother *)

(** [kalmanUpdate(state, z)]: the updated state and the returned estimate. *)
Definition kalmanUpdate (state : Kalman.state) (z : number)
  : Kalman.state * number :=
  let x0 := match Kalman.x state with None => z | Some x => x end in
  let p_pred := num_add (Kalman.p state) KALMAN_R in
  let K := num_div p_pred (num_add p_pred KALMAN_Q) in
  let x1 := num_add x0 (num_mul K (num_sub z x0)) in
  let p1 := num_mul (num_sub (Num 1) K) p_pred in
  (Kalman.mk (Some x1) p1, x1).

(** ** Digit derivation *)

(** The number of decimal digits of [n] after the first, for [n >= 1]. *)
Fixpoint log10_floor (fuel : nat) (n : Z) : Z :=
  match fuel with
  | O => 0
  | S fuel' => if (n <? 10)%Z then 0 else (1 + log10_floor fuel' (n / 10))%Z
  end.

(** [parseInt(price.toFixed(2).slice(-1))].  For a finite price below
    10^21 in magnitude, [toFixed(2)] prints the integer [n] nearest to
    [|price| * 100] (the larger one on a tie) with a point before its
    last two digits, so the last character is [n mod 10].  From 10^21 on
    [toFixed] prints the exponent form (as in [1e+21]) and the last
    character is the last digit of the decimal exponent.  The exponent
    is taken here of the rational the price denotes; the printed one is
    that of the shortest decimal that reads back as the double, which is
    one more for a double that lies just below a power of ten.  NaN and
    the infinities print as words, whose last character is not a
    digit. *)
Definition lastDigitOf (price : number) : digit :=
  match price with
  | Num q =>
      let a := Qabs q in
      if Qlt_bool a (inject_Z (10 ^ 21))
      then Some (Z.to_nat (Qfloor (a * 100 + (1 # 2)) mod 10))
      else
        let n := Qfloor a in
        Some (Z.to_nat (log10_floor (Z.to_nat (Z.log2 n)) n mod 10))
  | _ => None
  end.

(** ** Scoring models *)

(** [counts[d]++] on an array of counters: a digit 0..9 increments its
    cell, NaN addresses no cell. *)
Definition increment (d : digit) (counts : list nat) : list nat :=
  match d with
  | Some i => alter S i counts
  | None => counts
  end.

(** [Array(10).fill(0)] followed by [digits.forEach(d => counts[d]++)]. *)
Definition countDigits (digits : list digit) : list nat :=
  fold_left (fun counts d => increment d counts) digits (repeat 0%nat 10).

(** [Math.max(...counts)] on an array of counters. *)
Definition maxOf (counts : list nat) : nat := list_max counts.

Definition getLDFScores (digits : list digit) : list number :=
  let counts := countDigits digits in
  let maxCount := maxOf counts in
  map (fun count => num_mul (num_sub (of_nat maxCount) (of_nat count)) (Num 1.5))
      counts.

(** [digits.lastIndexOf(i)]: the greatest index holding [i], or -1. *)
Fixpoint lastIndexOf (digits : list digit) (i : nat) : Z :=
  match digits with
  | [] => -1
  | d :: rest =>
      let k := lastIndexOf rest i in
      if (k =? -1)%Z then (if digit_eqb d (Some i) then 0 else -1)%Z
      else (k + 1)%Z
  end.

Definition getRecencyScores (digits : list digit) : list number :=
  map (fun i =>
         let lastSeen := lastIndexOf digits i in
         if (lastSeen =? -1)%Z then of_nat ANALYSIS_TICKS
         else of_Z (Z.of_nat (length digits) - 1 - lastSeen))
      (seq 0 10).

(** The loop of [getPairingFrequencyScores]: for every position [i] but
    the final one, [if (digits[i] === last) transitions[digits[i+1]]++]. *)
Fixpoint countTransitions (last : digit) (digits : list digit)
    (transitions : list nat) : list nat :=
  match digits with
  | d :: ((next :: _) as rest) =>
      countTransitions last rest
        (if digit_eqb d last then increment next transitions else transitions)
  | _ => transitions
  end.

(** [maxTransition || 1] *)
Definition orOne (n : nat) : nat := if Nat.eqb n 0 then 1%nat else n.

(** [digits[digits.length - 1]] is undefined on an empty array; like NaN,
    undefined is [===] to no element of [digits]. *)
Definition getPairingFrequencyScores (digits : list digit) : list number :=
  let last := List.last digits None in
  let transitions := countTransitions last digits (repeat 0%nat 10) in
  let maxTransition := maxOf transitions in
  map (fun count =>
         num_mul (num_div (of_nat count) (of_nat (orOne maxTransition))) (Num 30))
      transitions.

(** The score of digit [d] in a score vector ([undefined] read as NaN). *)
Definition scoreAt (scores : list number) (d : nat) : number :=
  nth d scores NaN.

(** ** Volatility gate *)

(** A digit read as a number. *)
Definition digit_value (d : digit) : number :=
  match d with Some n => of_nat n | None => NaN end.

(** [array.slice(-n)]: the last [n] elements, all of them when fewer. *)
Definition slice_last {A : Type} (n : nat) (l : list A) : list A :=
  skipn (length l - n) l.

(** [getVolatilityCheck(digits)]; [None] is the TypeError of [reduce]
    without initial value on an empty array. *)
Definition getVolatilityCheck (digits : list digit) : option bool :=
  let slice := map digit_value (slice_last 30 digits) in
  let len := of_nat (length slice) in
  let mean := num_div (fold_left num_add slice (Num 0)) len in
  match map (fun x => num_mul (num_sub x mean) (num_sub x mean)) slice with
  | [] => None
  | d :: ds => Some (sqrt_lt (num_div (fold_left num_add ds d) len) 2.85)
  end.

(** ** Sorting *)

(** [array.sort(compareFn)] as a stable insertion sort: [a] is placed
    before the first [b] with [compareFn(b, a) > 0]; a comparison that
    yields zero or NaN keeps the order of the two.  JavaScript fixes the
    result of a sort (sorted and stable) when the comparisons are
    consistent, as they are on finite scores; with NaN among the scores
    the order is left to the engine and this is one admissible choice. *)
Section Sort.
Context {A : Type} (compareFn : A -> A -> number).

Fixpoint insertSorted (a : A) (sorted : list A) : list A :=
  match sorted with
  | [] => [a]
  | b :: rest =>
      if num_gt (compareFn b a) (Num 0) then a :: b :: rest
      else b :: insertSorted a rest
  end.

Definition sort (l : list A) : list A :=
  fold_left (fun sorted a => insertSorted a sorted) l [].
End Sort.

(** An object [{ score, ... }]: a score with what it scores (a digit
    index or a model). *)
Record scored (A : Type) : Type := mkScored { score : number; item : A }.
Arguments mkScored {A} _ _.
Arguments score {A} _.
Arguments item {A} _.

(** [(a, b) => b.score - a.score] *)
Definition descending {A : Type} (a b : scored A) : number :=
  num_sub (score b) (score a).

(** ** Fusion and certainty threshold *)

Inductive prediction : Type :=
| HOLD (reason : string)
| CONFIRMED (digit : nat) (confidence : number) (topModels : list model)
            (modelScores : Scores.t).

(** The weighted aggregation loop: [finalScores[i]], from 0, receives the
    three weighted scores in turn. *)
Definition aggregate (s : Scores.t) (w : Weights.t) : list number :=
  map (fun i =>
         let s0 := Num 0 in
         let s1 := num_add s0 (num_mul (scoreAt (Scores.ldf s) i) (Weights.ldf w)) in
         let s2 := num_add s1 (num_mul (scoreAt (Scores.recency s) i) (Weights.recency w)) in
         num_add s2 (num_mul (scoreAt (Scores.pf s) i) (Weights.pf w)))
      (seq 0 10).

(** [[...finalScores].map((score, index) => ({ score, index })).sort(...)] *)
Definition sortedScores (finalScores : list number) : list (scored nat) :=
  sort descending (map (fun '(index, score) => mkScored score index)
                       (combine (seq 0 (length finalScores)) finalScores)).

(** The test [best.score > runnerUp.score * CERTAINTY_THRESHOLD]. *)
Definition certain (best runnerUp : number) : bool :=
  num_gt best (num_mul runnerUp CERTAINTY_THRESHOLD).

(** [Math.min(99, Math.floor(50 + (best.score - runnerUp.score) * 2))] *)
Definition confidenceOf (best runnerUp : number) : number :=
  Math_min (Num 99)
    (Math_floor (num_add (Num 50) (num_mul (num_sub best runnerUp) (Num 2)))).

Definition topModelsAt (s : Scores.t) (index : nat) : list model :=
  map item
    (firstn 2
       (sort descending
          [ mkScored (scoreAt (Scores.ldf s) index) LDF;
            mkScored (scoreAt (Scores.recency s) index) RECENCY;
            mkScored (scoreAt (Scores.pf s) index) PF ])).

(** [getAIProbabilityPrediction(symbol)] on the instrument registered
    under the symbol; [None] is an uncaught TypeError. *)
Definition getAIProbabilityPrediction (instrument : instrument)
  : option prediction :=
  if (length (priceHistory instrument) <? ANALYSIS_TICKS)%nat
  then Some (HOLD "Calibrating...")
  else
    let lastDigits := map lastDigitOf (priceHistory instrument) in
    match getVolatilityCheck lastDigits with
    | None => None
    | Some false => Some (HOLD "Market too volatile")
    | Some true =>
        let modelScores :=
          Scores.mk (getLDFScores lastDigits) (getRecencyScores lastDigits)
                    (getPairingFrequencyScores lastDigits) in
        let finalScores := aggregate modelScores (weights instrument) in
        match sortedScores finalScores with
        | best :: runnerUp :: _ =>
            if certain (score best) (score runnerUp)
            then Some (CONFIRMED (item best)
                         (confidenceOf (score best) (score runnerUp))
                         (topModelsAt modelScores (item best))
                         modelScores)
            else Some (HOLD "No High-Certainty Signal")
        | _ => None
        end
    end.

(** ** The engine state *)

(** What [broadcast] sends to the connected clients.  The digit of a
    tick message is the last character of the raw price printed with
    [toFixed(2)], kept here as the digit it reads as. *)
Inductive message : Type :=
| TickMsg (symbol : string) (digit : digit)
| SignalMsg (symbol : string) (digit : nat) (confidence : number)
            (models : list model)
| StatusMsg (symbol : string) (status reason : string).

(** The weights file: absent, present but unreadable (reading or
    [JSON.parse] throws), holding the text null, or holding a snapshot,
    an object with a weight set per symbol, which is what [saveWeights]
    writes.  A number, string, boolean or array in the file has no entry
    for any symbol and behaves as the empty snapshot.  An object whose
    entries are not weight sets of three numbers is not a file the
    engine writes and has no counterpart here. *)
Inductive weights_file : Type :=
| NoFile
| Unreadable
| NullFile
| Snapshot (content : gmap string Weights.t).

(** What [loadWeights] hands to its caller: null or an object. *)
Inductive json : Type :=
| JSnull
| JSobject (entries : gmap string Weights.t).

(** What a call of [fs.writeFileSync] on the weights file does: it
    writes the file; it throws before the file is touched (the file may
    not be opened for writing); or it throws after the file was opened,
    which truncates it, and leaves a text that does not parse. *)
Inductive write_outcome : Type := Written | Refused | Truncated.

(** The global registry [instruments], the weights file with what a
    write to it does, the messages broadcast so far and the symbols
    of the deferred evaluations set with [setTimeout] and not yet run. *)
Record world : Type := mkWorld {
  instruments : gmap string instrument;
  file : weights_file;
  disk : write_outcome;
  sent : list message;
  timers : list string
}.

(** The names every plain object, the registry among them, inherits from
    [Object.prototype]: [instruments[name]] finds a function (for
    [__proto__] the prototype itself) when the registry has no entry of
    that name. *)
Definition Object_prototype : list string :=
  [ "constructor"; "__defineGetter__"; "__defineSetter__"; "hasOwnProperty";
    "__lookupGetter__"; "__lookupSetter__"; "isPrototypeOf";
    "propertyIsEnumerable"; "toString"; "valueOf"; "__proto__";
    "toLocaleString" ]%string.

Definition inherited (name : string) : bool :=
  existsb (String.eqb name) Object_prototype.

Definition with_instrument (symbol : string) (i : instrument) (w : world) : world :=
  mkWorld (<[symbol := i]> (instruments w)) (file w) (disk w) (sent w) (timers w).

Definition broadcast (data : message) (w : world) : world :=
  mkWorld (instruments w) (file w) (disk w) (sent w ++ [data]) (timers w).

Definition setTimeout (symbol : string) (w : world) : world :=
  mkWorld (instruments w) (file w) (disk w) (sent w) (timers w ++ [symbol]).

Definition with_tick (state : Kalman.state) (history : list number)
    (i : instrument) : instrument :=
  mkInstrument (symbol i) history state (weights i) (activeSignal i)
               (lossStreak i) (cooldownUntil i).

Definition with_signal (signal : option Signal.t) (i : instrument) : instrument :=
  mkInstrument (symbol i) (priceHistory i) (kalmanState i) (weights i) signal
               (lossStreak i) (cooldownUntil i).

Definition with_weights (weights : Weights.t) (i : instrument) : instrument :=
  mkInstrument (symbol i) (priceHistory i) (kalmanState i) weights
               (activeSignal i) (lossStreak i) (cooldownUntil i).

(** ** Persistence and initialization *)

(** [loadWeights()]: the parsed content of the file, and the empty
    object when there is no file or when reading or parsing throws. *)
Definition loadWeights (f : weights_file) : json :=
  match f with
  | Snapshot content => JSobject content
  | NullFile => JSnull
  | NoFile | Unreadable => JSobject ∅
  end.

(** A weight as it is after [JSON.stringify] and [JSON.parse].  A finite
    number is read back as it was written.  NaN and the infinities are
    written as null, and a weight that is null is the number 0 to every
    use the code makes of a weight: [*], [+=], [-=] and [Math.min]
    convert it with ToNumber, and the one method call on a weight,
    [toFixed] in the log line of [backtestAndLearn], comes after the
    loop that has replaced every weight by a number. *)
Definition reread (v : number) : number :=
  if is_finite v then v else Num 0.

Definition rereadAll (w : Weights.t) : Weights.t :=
  Weights.mk (reread (Weights.ldf w)) (reread (Weights.recency w))
             (reread (Weights.pf w)).

(** [saveWeights()]: the weights of all instruments go to the file; a
    write that throws is caught. *)
Definition saveWeights (w : world) : world :=
  let weightsToSave := weights <$> instruments w in
  match disk w with
  | Written =>
      mkWorld (instruments w) (Snapshot (rereadAll <$> weightsToSave)) (disk w)
              (sent w) (timers w)
  | Refused => w
  | Truncated => mkWorld (instruments w) Unreadable (disk w) (sent w) (timers w)
  end.

(** [savedWeights[symbol]]: reading a property of null throws.  The
    symbols looked up are the configured ones, none of which is the name
    of an inherited property. *)
Definition entryOf (savedWeights : json) (symbol : string)
  : option (option Weights.t) :=
  match savedWeights with
  | JSnull => None
  | JSobject entries => Some (entries !! symbol)
  end.

(** [initializeInstruments()] on the registry [instruments]; [None] is an
    uncaught TypeError: the loop reads [savedWeights[symbol]] outside the
    [try] of [loadWeights]. *)
Definition initializeInstruments (w : world) : option world :=
  let savedWeights := loadWeights (file w) in
  fold_left
    (fun registered '(symbol, _) =>
       w ← registered;
       saved ← entryOf savedWeights symbol;
       Some (with_instrument symbol
               {| symbol := symbol;
                  priceHistory := [];
                  kalmanState := Kalman.mk None (Num 1);
                  weights := default INITIAL_WEIGHTS saved;
                  activeSignal := None;
                  lossStreak := 0;
                  cooldownUntil := None |}
               w))
    VOLATILITY_INDEXES (Some w).

(** The state of the process when the script starts. *)
Definition boot (f : weights_file) (disk : write_outcome) : world :=
  mkWorld ∅ f disk [] [].

(** ** Adaptive learner *)

Definition adj : number := Num 0.05.

(** [modelScores.m[d]] as the comparison function reads it: NaN when the
    digit is NaN or the cell is undefined. *)
Definition scoreAtDigit (scores : list number) (d : digit) : number :=
  match d with
  | Some n => scoreAt scores n
  | None => NaN
  end.

(** The three models ranked by their captured score at digit [d]. *)
Definition rankModels (s : Scores.t) (d : digit) : list (scored model) :=
  sort descending
    [ mkScored (scoreAtDigit (Scores.ldf s) d) LDF;
      mkScored (scoreAtDigit (Scores.recency s) d) RECENCY;
      mkScored (scoreAtDigit (Scores.pf s) d) PF ].

(** [weights[m] += v] and [weights[m] -= v] *)
Definition raise (m : model) (v : number) (w : Weights.t) : Weights.t :=
  Weights.set m (num_add (Weights.get m w) v) w.

Definition lower (m : model) (v : number) (w : Weights.t) : Weights.t :=
  Weights.set m (num_sub (Weights.get m w) v) w.

(** The final loop over [Object.keys(instrument.weights)]. *)
Definition clamp (v : number) : number :=
  Math_max (Num 0.5) (Math_min (Num 2.0) v).

Definition clampAll (w : Weights.t) : Weights.t :=
  Weights.mk (clamp (Weights.ldf w)) (clamp (Weights.recency w))
             (clamp (Weights.pf w)).

(** The weight update of [backtestAndLearn] for a signal and the digit
    realized at evaluation time; [None] is an uncaught TypeError. *)
Definition learn (signal : Signal.t) (finalDigit : digit) (w : Weights.t)
  : option Weights.t :=
  let predictedDigit := Signal.predictedDigit signal in
  let modelScores := Signal.modelScores signal in
  let wasCorrect := digit_eqb finalDigit (Some predictedDigit) in
  let finalScores := rankModels modelScores finalDigit in
  let adjusted :=
    if wasCorrect then
      match finalScores with
      | first :: second :: _ =>
          Some (raise (item second) adj
                  (raise (item first) (num_mul adj (Num 2)) w))
      | _ => None
      end
    else
      match rankModels modelScores (Some predictedDigit) with
      | first :: _ => Some (lower (item first) (num_mul adj (Num 2)) w)
      | _ => None
      end in
  option_map clampAll adjusted.

(** [backtestAndLearn(symbol)] *)
Definition backtestAndLearn (symbol : string) (w : world) : option world :=
  match instruments w !! symbol with
  | None =>
      (* an inherited property has no [activeSignal]: the guard returns *)
      if inherited symbol then Some w else None
  | Some instrument =>
      match activeSignal instrument with
      | None => Some w
      | Some signal =>
          match last (priceHistory instrument) with
          | None => None
          | Some finalPrice =>
              match learn signal (lastDigitOf finalPrice) (weights instrument) with
              | None => None
              | Some weights' =>
                  Some (saveWeights
                          (with_instrument symbol
                             (with_weights weights' instrument) w))
              end
          end
      end
  end.

(** ** Signal life cycle *)

Module Tick.
Record t : Type := mk { symbol : string; quote : number }.
End Tick.

(** The deferred evaluation scheduled by [runAnalysis]. *)
Definition evaluate (symbol : string) (w : world) : option world :=
  match instruments w !! symbol with
  | None => None
  | Some instrument =>
      match activeSignal instrument with
      | None => Some w
      | Some _ =>
          match backtestAndLearn symbol w with
          | None => None
          | Some w' =>
              match instruments w' !! symbol with
              | None => None
              | Some instrument' =>
                  Some (with_instrument symbol (with_signal None instrument') w')
              end
          end
      end
  end.

(** [runAnalysis(symbol)] at time [now]. *)
Definition runAnalysis (symbol : string) (now : Z) (w : world) : option world :=
  match instruments w !! symbol with
  | None => None
  | Some instrument =>
      match activeSignal instrument with
      | Some _ => Some w
      | None =>
          match getAIProbabilityPrediction instrument with
          | None => None
          | Some (CONFIRMED digit confidence topModels modelScores) =>
              let signal := Signal.mk digit modelScores now in
              Some (setTimeout symbol
                      (broadcast (SignalMsg symbol digit confidence topModels)
                         (with_instrument symbol
                            (with_signal (Some signal) instrument) w)))
          | Some (HOLD reason) =>
              Some (broadcast (StatusMsg symbol "ANALYZING" reason) w)
          end
      end
  end.

(** [handleTick(tick)] at time [now]. *)
Definition handleTick (tick : Tick.t) (now : Z) (w : world) : option world :=
  let symbol := Tick.symbol tick in
  match instruments w !! symbol with
  | None =>
      (* an inherited property passes the guard and has no [kalmanState],
         which [kalmanUpdate] then reads a property of *)
      if inherited symbol then None else Some w
  | Some instrument =>
      let newPrice := Tick.quote tick in
      let '(state, smoothedPrice) := kalmanUpdate (kalmanState instrument) newPrice in
      let pushed := priceHistory instrument ++ [smoothedPrice] in
      let history :=
        if (STABILITY_ANALYSIS_TICKS + 5 <? length pushed)%nat
        then tail pushed else pushed in
      let w1 := with_instrument symbol (with_tick state history instrument) w in
      let w2 := broadcast (TickMsg symbol (lastDigitOf newPrice)) w1 in
      runAnalysis symbol now w2
  end.

(** The pending deferred evaluations without the first one for [symbol];
    [None] when there is none. *)
Fixpoint clearTimeout (symbol : string) (timers : list string)
  : option (list string) :=
  match timers with
  | [] => None
  | t :: rest =>
      if String.eqb t symbol then Some rest
      else option_map (cons t) (clearTimeout symbol rest)
  end.

(** What happens to the engine: a tick arrives, a pending deferred
    evaluation fires, or the learning step is invoked on a symbol. *)
Inductive event : Type :=
| Arrives (tick : Tick.t) (now : Z)
| Fires (symbol : string)
| Learns (symbol : string).

Definition step (e : event) (w : world) : option world :=
  match e with
  | Arrives tick now => handleTick tick now w
  | Fires symbol =>
      match clearTimeout symbol (timers w) with
      | None => Some w
      | Some timers' =>
          evaluate symbol
            (mkWorld (instruments w) (file w) (disk w) (sent w) timers')
      end
  | Learns symbol => backtestAndLearn symbol w
  end.

Fixpoint run (events : list event) (w : world) : option world :=
  match events with
  | [] => Some w
  | e :: rest =>
      match step e w with
      | None => None
      | Some w' => run rest w'
      end
  end.

(** ** Vocabulary of the properties *)

(** How often digit [d] occurs in a sequence. *)
Fixpoint occurrences (d : nat) (digits : list digit) : nat :=
  match digits with
  | [] => 0
  | x :: rest => ((if digit_eqb x (Some d) then 1 else 0) + occurrences d rest)%nat
  end.

(** The occurrence count of the most frequent of the ten digits. *)
Definition maxOccurrences (digits : list digit) : nat :=
  list_max (map (fun d => occurrences d digits) (seq 0 10)).

(** How often [a] is immediately followed by [b] in a sequence. *)
Fixpoint follows (a : digit) (b : nat) (digits : list digit) : nat :=
  match digits with
  | x :: ((y :: _) as rest) =>
      ((if digit_eqb x a && digit_eqb y (Some b) then 1 else 0)
       + follows a b rest)%nat
  | _ => 0%nat
  end.

(** A weight set within the bounds of the learner. *)
Definition bounded (v : number) : Prop :=
  num_le (Num 0.5) v = true /\ num_le v (Num 2.0) = true.

Definition in_range (w : Weights.t) : Prop :=
  forall m : model, bounded (Weights.get m w).

Definition weights_ok (symbol : string) (w : world) : Prop :=
  forall i, instruments w !! symbol = Some i -> in_range (weights i).

Definition non_negative (w : Weights.t) : Prop :=
  forall m : model, num_le (Num 0) (Weights.get m w) = true.

Definition is_confirmed (p : option prediction) : bool :=
  match p with
  | Some (CONFIRMED _ _ _ _) => true
  | _ => false
  end.

(** The transition counts out of the last digit, one per digit. *)
Definition transitionCounts (digits : list digit) : list nat :=
  map (fun d => follows (List.last digits None) d digits) (seq 0 10).

Definition all_finite (w : Weights.t) : Prop :=
  forall m : model, is_finite (Weights.get m w) = true.

(** The model that the learning step on [i] penalizes: the top-ranked
    one at the predicted digit when the outcome is a LOSS. *)
Definition penalized (i : instrument) : option model :=
  match activeSignal i, last (priceHistory i) with
  | Some signal, Some finalPrice =>
      let predictedDigit := Signal.predictedDigit signal in
      if digit_eqb (lastDigitOf finalPrice) (Some predictedDigit) then None
      else option_map item
             (head (rankModels (Signal.modelScores signal) (Some predictedDigit)))
  | _, _ => None
  end.

(** The weight of model [m] of the instrument registered under [symbol]. *)
Definition weightOf (symbol : string) (m : model) (w : world) : option number :=
  option_map (fun i => Weights.get m (weights i)) (instruments w !! symbol).

(** [n] learning steps on [symbol] in a row, each a LOSS that penalizes
    model [m]; before each step the instrument may have changed in
    everything but its weights (new ticks, a new signal). *)
Inductive losing_streak (symbol : string) (m : model)
  : nat -> world -> world -> Prop :=
| streak_done (w : world) : losing_streak symbol m 0 w w
| streak_loss (n : nat) (w w1 w2 : world) (i i' : instrument) :
    instruments w !! symbol = Some i ->
    weights i' = weights i ->
    penalized i' = Some m ->
    backtestAndLearn symbol (with_instrument symbol i' w) = Some w1 ->
    losing_streak symbol m n w1 w2 ->
    losing_streak symbol m (S n) w w2.

(** The three score vectors of a digit sequence and the fused scores of
    an instrument, as [getAIProbabilityPrediction] computes them. *)
Definition scoresOf (digits : list digit) : Scores.t :=
  Scores.mk (getLDFScores digits) (getRecencyScores digits)
            (getPairingFrequencyScores digits).

Definition fusedScores (i : instrument) : list number :=
  aggregate (scoresOf (map lastDigitOf (priceHistory i))) (weights i).

(** A finite non-negative number. *)
Definition finite_nonneg (v : number) : Prop :=
  match v with Num q => 0 <= q | _ => False end.

(** A number that is NaN, +Infinity or finite and non-negative. *)
Definition not_negative (v : number) : Prop :=
  match v with Num q => 0 <= q | NegInf => False | _ => True end.

(** A history of 100 prices whose last digits cycle through 0..8. *)
Definition calm_history : list number :=
  map (fun k => Num (inject_Z (10000 + Z.of_nat (k mod 9)) / 100)) (seq 0 100).

Definition calm_instrument : instrument :=
  mkInstrument "1HZ100V" calm_history (Kalman.mk (Some (Num 100)) (Num 1))
               INITIAL_WEIGHTS None 0 None.

(** ** Vocabulary of the further properties *)

(** Whether a symbol is one of the configured ones. *)
Definition symbol_listed (symbol : string)
  : {In symbol (map fst VOLATILITY_INDEXES)} + {~ In symbol (map fst VOLATILITY_INDEXES)} :=
  in_dec string_dec symbol (map fst VOLATILITY_INDEXES).

#[global] Instance model_eq_dec : EqDecision model.
Proof. solve_decision. Defined.

(** [a] scores at least as much as [b], both scores being finite. *)
Definition outranks {A : Type} (a b : scored A) : Prop :=
  exists p q, score a = Num p /\ score b = Num q /\ q <= p.

Definition finite_score {A : Type} (a : scored A) : Prop :=
  is_finite (score a) = true.

(** The objects [{ score, index }] that [sortedScores] sorts. *)
Definition entriesOf (finalScores : list number) : list (scored nat) :=
  map (fun '(index, score) => mkScored score index)
      (combine (seq 0 (length finalScores)) finalScores).

(** The number of deferred evaluations pending for a symbol. *)
Definition pending (symbol : string) (w : world) : nat :=
  count_occ string_dec (timers w) symbol.

(** A signal is open exactly while one deferred evaluation is pending for
    its instrument, and an instrument with an open signal has a price in
    its history; nothing is pending for an unknown symbol. *)
Definition lifecycle_ok (w : world) : Prop :=
  forall symbol : string,
    match instruments w !! symbol with
    | Some i =>
        match activeSignal i with
        | Some _ => pending symbol w = 1%nat /\ priceHistory i <> []
        | None => pending symbol w = 0%nat
        end
    | None => pending symbol w = 0%nat
    end.

(** Every history holds at most [STABILITY_ANALYSIS_TICKS + 5] prices. *)
Definition history_ok (w : world) : Prop :=
  forall symbol i,
    instruments w !! symbol = Some i ->
    (length (priceHistory i) <= STABILITY_ANALYSIS_TICKS + 5)%nat.

(** An event the engine can meet in world [w]: a tick for a registered
    symbol, or for one that is not the name of an inherited property of
    the registry; the firing of a timer; the learning step, which is
    only ever invoked on a registered symbol. *)
Definition known (w : world) (e : event) : Prop :=
  match e with
  | Arrives tick _ =>
      is_Some (instruments w !! Tick.symbol tick)
      \/ inherited (Tick.symbol tick) = false
  | Fires _ => True
  | Learns symbol => is_Some (instruments w !! symbol)
  end.

(** The same, told from the configuration alone: none of the configured
    symbols is the name of an inherited property. *)
Definition expected (e : event) : Prop :=
  match e with
  | Arrives tick _ => inherited (Tick.symbol tick) = false
  | Fires _ => True
  | Learns symbol => In symbol (map fst VOLATILITY_INDEXES)
  end.

Definition same_symbols (w w' : world) : Prop :=
  forall symbol, is_Some (instruments w' !! symbol) <-> is_Some (instruments w !! symbol).

(** The instrument that [handleTick] hands to the analysis. *)
Definition ticked (tick : Tick.t) (i : instrument) : instrument :=
  let '(state, smoothedPrice) := kalmanUpdate (kalmanState i) (Tick.quote tick) in
  let pushed := priceHistory i ++ [smoothedPrice] in
  with_tick state
    (if (STABILITY_ANALYSIS_TICKS + 5 <? length pushed)%nat then tail pushed else pushed)
    i.

(** The engine after a start without a weights file. *)
Definition started : world :=
  default (boot NoFile Written) (initializeInstruments (boot NoFile Written)).

(** An instrument that has seen two prices. *)
Definition seasoned : instrument :=
  mkInstrument "1HZ100V" [Num 100.07; Num 100.12]
               (Kalman.mk (Some (Num 100.12)) (Num 0.05)) INITIAL_WEIGHTS
               None 0 None.

(** ** Worked examples *)

Example pf_example :
  map (fun s => match s with Num q => Qred q | _ => 0 end)
      (getPairingFrequencyScores (map Some [3;3;3;7;3]%nat))
  = [0; 0; 0; 30; 0; 0; 0; 15; 0; 0].
Proof. vm_compute. reflexivity. Qed.

Example ldf_example :
  map (fun s => match s with Num q => Qred q | _ => 0 end)
      (getLDFScores (map Some [3;3;3;3;7;7;1;3;3;3]%nat))
  = [21 # 2; 9; 21 # 2; 0; 21 # 2; 21 # 2; 21 # 2; 15 # 2; 21 # 2; 21 # 2].
Proof. vm_compute. reflexivity. Qed.

Example recency_example :
  getRecencyScores (map Some [3;7;1;3]%nat)
  = map of_Z [100; 1; 100; 0; 100; 100; 100; 2; 100; 100]%Z.
Proof. vm_compute. reflexivity. Qed.

Example digit_example :
  map lastDigitOf [Num 1234.567; Num (-0.005); Num 2.5; NaN; PosInf;
                   Num (inject_Z (10 ^ 21)); Num (inject_Z (123 * 10 ^ 30))]
  = [Some 7; Some 1; Some 0; None; None; Some 1; Some 2]%nat.
Proof. vm_compute. reflexivity. Qed.

(** ** Rational comparisons *)

Lemma Qlt_bool_iff (p q : Q) : Qlt_bool p q = true <-> p < q.
Proof.
  unfold Qlt_bool. rewrite negb_true_iff.
  split.
  - intros H. apply Qnot_le_lt. intros Hle.
    apply Qle_bool_iff in Hle. congruence.
  - intros H. destruct (Qle_bool q p) eqn:E; [|reflexivity].
    apply Qle_bool_iff in E. exfalso. exact (Qlt_not_le _ _ H E).
Qed.

Lemma Qlt_bool_false (p q : Q) : Qlt_bool p q = false <-> q <= p.
Proof.
  unfold Qlt_bool. rewrite negb_false_iff. apply Qle_bool_iff.
Qed.

Lemma Qle_bool_false (p q : Q) : Qle_bool p q = false <-> q < p.
Proof.
  rewrite <- Qlt_bool_iff. unfold Qlt_bool.
  destruct (Qle_bool p q); simpl; split; congruence.
Qed.

Lemma Qeq_bool_false (p q : Q) : Qeq_bool p q = false <-> ~ p == q.
Proof.
  split.
  - apply Qeq_bool_neq.
  - intros H. destruct (Qeq_bool p q) eqn:E; [|reflexivity].
    apply Qeq_bool_iff in E. contradiction.
Qed.

(** Same-value comparison is an equivalence on numbers. *)
#[global] Instance same_equivalence : Equivalence same.
Proof.
  split.
  - intros [p| | |]; simpl; [reflexivity | exact I ..].
  - intros [p| | |] [q| | |]; simpl; try tauto. intros H. symmetry. exact H.
  - intros [p| | |] [q| | |] [r| | |]; simpl; try tauto.
    intros H1 H2. rewrite H1. exact H2.
Qed.

(** ** Counting *)

(** Settles a goal about a cell index below ten by trying each index. *)
Ltac each_of_ten d :=
  do 10 (destruct d as [|d]; [reflexivity|]); lia.

Lemma increment_length (d : digit) (counts : list nat) :
  length (increment d counts) = length counts.
Proof. destruct d; simpl; [apply length_alter | reflexivity]. Qed.

Lemma increment_nth (d : digit) (counts : list nat) (i : nat) :
  (i < length counts)%nat ->
  nth i (increment d counts) 0%nat
  = ((if digit_eqb d (Some i) then 1 else 0) + nth i counts 0)%nat.
Proof.
  intros Hi. destruct d as [n|]; simpl; [|reflexivity].
  rewrite !nth_lookup, list_lookup_alter.
  destruct (decide (n = i)) as [->|Hne].
  - rewrite Nat.eqb_refl.
    destruct (lookup_lt_is_Some_2 counts i Hi) as [c Hc].
    rewrite Hc. reflexivity.
  - apply Nat.eqb_neq in Hne. rewrite Hne. reflexivity.
Qed.

Lemma fold_increment_length (digits : list digit) (counts : list nat) :
  length (fold_left (fun counts d => increment d counts) digits counts)
  = length counts.
Proof.
  revert counts. induction digits as [|d digits IH]; intros counts; simpl.
  - reflexivity.
  - rewrite IH. apply increment_length.
Qed.

Lemma fold_increment_nth (digits : list digit) (counts : list nat) (i : nat) :
  (i < length counts)%nat ->
  nth i (fold_left (fun counts d => increment d counts) digits counts) 0%nat
  = (nth i counts 0 + occurrences i digits)%nat.
Proof.
  revert counts. induction digits as [|d digits IH]; intros counts Hi; simpl.
  - lia.
  - rewrite IH by (rewrite increment_length; exact Hi).
    rewrite increment_nth by exact Hi. lia.
Qed.

Lemma countDigits_length (digits : list digit) :
  length (countDigits digits) = 10%nat.
Proof. unfold countDigits. rewrite fold_increment_length. reflexivity. Qed.

Lemma countDigits_nth (digits : list digit) (d : nat) :
  (d < 10)%nat -> nth d (countDigits digits) 0%nat = occurrences d digits.
Proof.
  intros Hd. unfold countDigits.
  rewrite fold_increment_nth by (simpl; exact Hd).
  replace (nth d (repeat 0%nat 10) 0%nat) with 0%nat; [reflexivity|].
  each_of_ten d.
Qed.

(** A list of ten cells is the list of its ten entries. *)
Lemma ten_cells {A : Type} (l : list A) (a : A) :
  length l = 10%nat -> l = map (fun i => nth i l a) (seq 0 10).
Proof.
  intros H.
  do 10 (destruct l as [|? l]; [discriminate H|]).
  destruct l; [reflexivity | discriminate H].
Qed.

Lemma countDigits_spec (digits : list digit) :
  countDigits digits = map (fun d => occurrences d digits) (seq 0 10).
Proof.
  rewrite (ten_cells (countDigits digits) 0%nat (countDigits_length digits)).
  apply map_ext_in. intros d Hd. apply in_seq in Hd.
  apply countDigits_nth. lia.
Qed.

Lemma list_max_In (l : list nat) : l <> [] -> In (list_max l) l.
Proof.
  induction l as [|a l IH]; intros Hne; [contradiction|].
  simpl. destruct l as [|b l].
  - left. simpl. lia.
  - destruct (Nat.max_spec a (list_max (b :: l))) as [[_ ->]|[_ ->]].
    + right. apply IH. discriminate.
    + left. reflexivity.
Qed.

Lemma list_max_ge (l : list nat) (n : nat) : In n l -> (n <= list_max l)%nat.
Proof.
  intros Hin.
  assert (H : Forall (fun k => (k <= list_max l)%nat) l)
    by (apply list_max_le; lia).
  rewrite Forall_forall in H. apply H. apply list_elem_of_In. exact Hin.
Qed.

Lemma maxOccurrences_ge (digits : list digit) (d : nat) :
  (d < 10)%nat -> (occurrences d digits <= maxOccurrences digits)%nat.
Proof.
  intros Hd. apply list_max_ge.
  apply in_map_iff. exists d. split; [reflexivity|]. apply in_seq. lia.
Qed.

Lemma maxOccurrences_attained (digits : list digit) :
  exists d, (d < 10)%nat /\ occurrences d digits = maxOccurrences digits.
Proof.
  assert (H : In (maxOccurrences digits)
                 (map (fun d => occurrences d digits) (seq 0 10)))
    by (apply list_max_In; discriminate).
  apply in_map_iff in H. destruct H as (d & Hd & Hin).
  apply in_seq in Hin. exists d. split; [lia | exact Hd].
Qed.

(** Reading a cell of a mapped array of ten counters. *)
Lemma scoreAt_map (f : nat -> number) (counts : list nat) (d : nat) :
  (d < length counts)%nat ->
  scoreAt (map f counts) d = f (nth d counts 0%nat).
Proof.
  intros Hd. unfold scoreAt.
  rewrite (nth_indep _ NaN (f 0%nat)) by (rewrite length_map; exact Hd).
  apply map_nth.
Qed.

Lemma getLDFScores_at (digits : list digit) (d : nat) :
  (d < 10)%nat ->
  scoreAt (getLDFScores digits) d
  = num_mul (num_sub (of_nat (maxOccurrences digits))
                     (of_nat (occurrences d digits)))
            (Num 1.5).
Proof.
  intros Hd. unfold getLDFScores.
  rewrite scoreAt_map by (rewrite countDigits_length; exact Hd).
  rewrite countDigits_nth by exact Hd.
  unfold maxOf. rewrite countDigits_spec. reflexivity.
Qed.

(** C7.  LDF correctness: for every digit sequence and every digit [d],
    the LDF score of [d] is [(maxCount - count[d]) * 1.5], where [count]
    gives the occurrences of each digit and [maxCount] is the count of
    a most frequent digit; hence every digit with the maximal count
    scores exactly 0, which no score is below, and a digit absent from
    the sequence scores [maxCount * 1.5]. *)
Theorem ldf_correct (digits : list digit) (d : nat) :
  Forall valid_digit digits ->
  (d < 10)%nat ->
  let maxCount := maxOccurrences digits in
  let count := occurrences d digits in
  let score := scoreAt (getLDFScores digits) d in
  (exists top, (top < 10)%nat /\ occurrences top digits = maxCount)
  /\ score =n= Num ((inject_Z (Z.of_nat maxCount) - inject_Z (Z.of_nat count)) * 1.5)
  /\ (count = maxCount -> score =n= Num 0)
  /\ (count = 0%nat -> score =n= Num (inject_Z (Z.of_nat maxCount) * 1.5))
  /\ num_le (Num 0) score = true.
Proof.
  intros _ Hd maxCount count score.
  assert (Hscore : score
    = Num ((inject_Z (Z.of_nat maxCount) + - inject_Z (Z.of_nat count)) * 1.5))
    by (subst score; rewrite getLDFScores_at by exact Hd; reflexivity).
  assert (Hle : (count <= maxCount)%nat) by (apply maxOccurrences_ge; exact Hd).
  split; [apply maxOccurrences_attained|].
  rewrite Hscore. simpl.
  split; [reflexivity|].
  split; [intros ->; ring|].
  split; [intros ->; simpl; ring|].
  apply Qle_bool_iff.
  apply Qmult_le_0_compat; [|discriminate].
  rewrite <- (Qplus_opp_r (inject_Z (Z.of_nat count))).
  apply Qplus_le_l. rewrite <- Zle_Qle. lia.
Qed.

Lemma ldf_correct_witness :
  let digits := map Some [3;3;3;3;7;7;1;3;3;3]%nat in
  Forall valid_digit digits /\ (9 < 10)%nat
  /\ (occurrences 9 digits = 0%nat ->
      scoreAt (getLDFScores digits) 9
      =n= Num (inject_Z (Z.of_nat (maxOccurrences digits)) * 1.5)).
Proof.
  intros digits.
  assert (Hvalid : Forall valid_digit digits)
    by (repeat constructor; simpl; lia).
  assert (Hlt : (9 < 10)%nat) by lia.
  split; [exact Hvalid|]. split; [exact Hlt|].
  exact (proj1 (proj2 (proj2 (proj2 (ldf_correct digits 9 Hvalid Hlt))))).
Defined.

(** ** Digits *)

(** A price always yields NaN or a digit 0..9, the values the counters
    of the scoring models are indexed by. *)
Lemma lastDigitOf_valid (price : number) : valid_digit (lastDigitOf price).
Proof.
  destruct price as [q| | |]; simpl; try exact I.
  destruct (Qlt_bool (Qabs q) (inject_Z (10 ^ 21)));
    (apply Nat2Z.inj_lt; rewrite Z2Nat.id;
     [apply Z.mod_pos_bound | apply Z.mod_pos_bound]; lia).
Qed.

Lemma lastDigits_valid (history : list number) :
  Forall valid_digit (map lastDigitOf history).
Proof.
  apply Forall_forall. intros d Hd.
  apply list_elem_of_In, in_map_iff in Hd. destruct Hd as (price & <- & _).
  apply lastDigitOf_valid.
Qed.

(** ** Recency *)

Lemma digit_eqb_eq (x : digit) (d : nat) : digit_eqb x (Some d) = true <-> x = Some d.
Proof.
  destruct x as [n|]; simpl.
  - rewrite Nat.eqb_eq. split; congruence.
  - split; discriminate.
Qed.

Lemma occurrences_absent (d : nat) (digits : list digit) :
  occurrences d digits = 0%nat <-> ~ In (Some d) digits.
Proof.
  induction digits as [|x digits IH]; simpl.
  - tauto.
  - destruct (digit_eqb x (Some d)) eqn:E.
    + apply digit_eqb_eq in E. split; [discriminate | intros H; exfalso; auto].
    + simpl. rewrite IH. split.
      * intros H [Hx|Hin]; [|auto].
        apply digit_eqb_eq in Hx. congruence.
      * intros H Hin. auto.
Qed.

Lemma lastIndexOf_bounds (digits : list digit) (i : nat) :
  (-1 <= lastIndexOf digits i < Z.of_nat (length digits))%Z.
Proof.
  induction digits as [|d digits IH]; simpl lastIndexOf.
  - simpl. lia.
  - rewrite length_cons.
    destruct (lastIndexOf digits i =? -1)%Z eqn:E.
    + destruct (digit_eqb d (Some i)); lia.
    + apply Z.eqb_neq in E. lia.
Qed.

Lemma lastIndexOf_absent (digits : list digit) (i : nat) :
  ~ In (Some i) digits -> lastIndexOf digits i = (-1)%Z.
Proof.
  induction digits as [|d digits IH]; intros Hnot; simpl.
  - reflexivity.
  - rewrite IH by (intros H; apply Hnot; right; exact H). simpl.
    destruct (digit_eqb d (Some i)) eqn:E; [|reflexivity].
    apply digit_eqb_eq in E. exfalso. apply Hnot. left. exact E.
Qed.

Lemma lastIndexOf_final (digits : list digit) (i : nat) :
  lastIndexOf (digits ++ [Some i]) i = Z.of_nat (length digits).
Proof.
  induction digits as [|d digits IH].
  - simpl. rewrite Nat.eqb_refl. reflexivity.
  - rewrite <- app_comm_cons. simpl lastIndexOf. rewrite IH.
    replace (Z.of_nat (length digits) =? -1)%Z with false
      by (symmetry; apply Z.eqb_neq; lia).
    rewrite length_cons. lia.
Qed.

Lemma getRecencyScores_at (digits : list digit) (d : nat) :
  (d < 10)%nat ->
  scoreAt (getRecencyScores digits) d
  = if (lastIndexOf digits d =? -1)%Z then of_nat ANALYSIS_TICKS
    else of_Z (Z.of_nat (length digits) - 1 - lastIndexOf digits d).
Proof.
  intros Hd. unfold getRecencyScores.
  rewrite scoreAt_map by (rewrite length_seq; exact Hd).
  rewrite seq_nth by exact Hd. reflexivity.
Qed.

(** C6, as the code has it.  Recency correctness: for every non-empty
    digit sequence, a digit that does not occur in it scores exactly
    the minimum-history constant 100, and the digit at the last
    position scores 0; a digit that occurs scores its distance from the
    end, so 100 bounds the ten scores as long as the sequence has at
    most 101 digits. *)
Theorem recency_correct (digits : list digit) (d : nat) :
  Forall valid_digit digits ->
  digits <> [] ->
  (d < 10)%nat ->
  let score := scoreAt (getRecencyScores digits) d in
  (~ In (Some d) digits -> score = of_nat ANALYSIS_TICKS)
  /\ (last digits = Some (Some d) -> score = of_Z 0)
  /\ ((length digits <= 101)%nat -> num_le score (of_nat ANALYSIS_TICKS) = true).
Proof.
  intros _ _ Hd score. subst score.
  rewrite getRecencyScores_at by exact Hd.
  split; [|split].
  - intros Habs. rewrite lastIndexOf_absent by exact Habs. reflexivity.
  - intros Hlast. apply last_Some in Hlast. destruct Hlast as [l ->].
    rewrite lastIndexOf_final, length_app. simpl length.
    replace (Z.of_nat (length l) =? -1)%Z with false
      by (symmetry; apply Z.eqb_neq; lia).
    f_equal. lia.
  - intros Hlen. pose proof (lastIndexOf_bounds digits d) as Hb.
    destruct (lastIndexOf digits d =? -1)%Z eqn:E; [reflexivity|].
    apply Z.eqb_neq in E.
    unfold of_nat, of_Z, num_le. apply Qle_bool_iff.
    rewrite <- Zle_Qle. unfold ANALYSIS_TICKS. lia.
Qed.

Lemma recency_correct_witness :
  let digits := map Some [3;7;1;3]%nat in
  Forall valid_digit digits /\ digits <> [] /\ (3 < 10)%nat
  /\ last digits = Some (Some 3%nat)
  /\ scoreAt (getRecencyScores digits) 3 = of_Z 0.
Proof.
  intros digits.
  assert (Hvalid : Forall valid_digit digits)
    by (repeat constructor; simpl; lia).
  assert (Hne : digits <> []) by discriminate.
  assert (Hlt : (3 < 10)%nat) by lia.
  assert (Hlast : last digits = Some (Some 3%nat)) by reflexivity.
  repeat (split; [assumption|]).
  exact (proj1 (proj2 (recency_correct digits 3 Hvalid Hne Hlt)) Hlast).
Defined.

(** C6 as stated fails on a long window: with 102 digits, digit 1 seen
    only at the first position scores 101, above the 100 of the absent
    digit 2. *)
Lemma recency_absent_not_maximal :
  let digits := Some 1%nat :: repeat (Some 0%nat) 101 in
  digits <> [] /\ Forall valid_digit digits /\ ~ In (Some 2%nat) digits
  /\ scoreAt (getRecencyScores digits) 2 = of_nat ANALYSIS_TICKS
  /\ scoreAt (getRecencyScores digits) 1 = of_Z 101
  /\ num_le (scoreAt (getRecencyScores digits) 1)
            (scoreAt (getRecencyScores digits) 2) = false.
Proof.
  intros digits.
  split; [discriminate|].
  split.
  { constructor; [simpl; lia|]. apply Forall_forall. intros x Hx.
    apply list_elem_of_In, repeat_spec in Hx. subst x. simpl. lia. }
  split; [apply occurrences_absent; vm_compute; reflexivity|].
  split; [vm_compute; reflexivity|].
  split; vm_compute; reflexivity.
Qed.

(** ** Pairing frequency *)

Lemma countTransitions_length (last : digit) (digits : list digit) (t : list nat) :
  length (countTransitions last digits t) = length t.
Proof.
  revert t. induction digits as [|d digits IH]; intros t; [reflexivity|].
  destruct digits as [|next rest]; [reflexivity|].
  change (length (countTransitions last (next :: rest)
            (if digit_eqb d last then increment next t else t)) = length t).
  rewrite IH. destruct (digit_eqb d last); [apply increment_length | reflexivity].
Qed.

Lemma countTransitions_nth (last : digit) (digits : list digit) (t : list nat)
    (i : nat) :
  (i < length t)%nat ->
  nth i (countTransitions last digits t) 0%nat
  = (nth i t 0 + follows last i digits)%nat.
Proof.
  revert t. induction digits as [|d digits IH]; intros t Hi; [simpl; lia|].
  destruct digits as [|next rest]; [simpl; lia|].
  change (nth i (countTransitions last (next :: rest)
                   (if digit_eqb d last then increment next t else t)) 0%nat
          = (nth i t 0
             + ((if digit_eqb d last && digit_eqb next (Some i) then 1 else 0)
                + follows last i (next :: rest)))%nat).
  rewrite IH by (destruct (digit_eqb d last);
                 [rewrite increment_length|]; exact Hi).
  destruct (digit_eqb d last); cbn [andb]; cbv iota.
  - rewrite increment_nth by exact Hi. lia.
  - lia.
Qed.

Lemma countTransitions_spec (digits : list digit) :
  countTransitions (List.last digits None) digits (repeat 0%nat 10)
  = transitionCounts digits.
Proof.
  set (t := countTransitions _ _ _).
  assert (Hlen : length t = 10%nat)
    by (subst t; rewrite countTransitions_length; reflexivity).
  rewrite (ten_cells t 0%nat Hlen).
  apply map_ext_in. intros d Hd. apply in_seq in Hd.
  subst t. rewrite countTransitions_nth by (simpl; lia).
  replace (nth d (repeat 0%nat 10) 0%nat) with 0%nat; [reflexivity|].
  each_of_ten d.
Qed.

Lemma orOne_positive (n : nat) : (1 <= orOne n)%nat.
Proof. unfold orOne. destruct n; simpl; lia. Qed.

Lemma inject_nat_positive (n : nat) : (1 <= n)%nat -> 0 < inject_Z (Z.of_nat n).
Proof. intros H. change 0 with (inject_Z 0). rewrite <- Zlt_Qlt. lia. Qed.

Lemma num_div_counts (c n : nat) :
  (1 <= n)%nat ->
  num_div (of_nat c) (of_nat n)
  = Num (inject_Z (Z.of_nat c) / inject_Z (Z.of_nat n)).
Proof.
  intros Hn. unfold num_div, of_nat, of_Z.
  replace (Qeq_bool (inject_Z (Z.of_nat n)) 0) with false; [reflexivity|].
  symmetry. apply Qeq_bool_false. intros H.
  pose proof (inject_nat_positive n Hn) as Hpos.
  rewrite H in Hpos. exact (Qlt_irrefl _ Hpos).
Qed.

Lemma getPairingFrequencyScores_at (digits : list digit) (d : nat) :
  (d < 10)%nat ->
  scoreAt (getPairingFrequencyScores digits) d
  = Num (inject_Z (Z.of_nat (follows (List.last digits None) d digits))
         / inject_Z (Z.of_nat (orOne (list_max (transitionCounts digits))))
         * 30).
Proof.
  intros Hd. unfold getPairingFrequencyScores, maxOf.
  rewrite countTransitions_spec.
  rewrite scoreAt_map by (unfold transitionCounts; rewrite length_map, length_seq; exact Hd).
  rewrite num_div_counts by apply orOne_positive.
  unfold transitionCounts at 1.
  rewrite (nth_indep _ 0%nat ((fun d => follows (List.last digits None) d digits) 0%nat))
    by (rewrite length_map, length_seq; exact Hd).
  rewrite (map_nth (fun d => follows (List.last digits None) d digits)).
  rewrite seq_nth by exact Hd. reflexivity.
Qed.

Lemma transitionCounts_ge (digits : list digit) (d : nat) :
  (d < 10)%nat ->
  (follows (List.last digits None) d digits <= list_max (transitionCounts digits))%nat.
Proof.
  intros Hd. apply list_max_ge. unfold transitionCounts.
  apply in_map_iff. exists d. split; [reflexivity | apply in_seq; lia].
Qed.

Lemma transitionCounts_attained (digits : list digit) :
  exists d, (d < 10)%nat
    /\ follows (List.last digits None) d digits = list_max (transitionCounts digits).
Proof.
  assert (H : In (list_max (transitionCounts digits)) (transitionCounts digits))
    by (apply list_max_In; discriminate).
  apply in_map_iff in H. destruct H as (d & Hd & Hin).
  apply in_seq in Hin. exists d. split; [lia | exact Hd].
Qed.

Lemma last_default (digits : list digit) (x : digit) :
  last digits = Some x -> List.last digits None = x.
Proof.
  intros H. apply last_Some in H. destruct H as [l ->].
  apply List.last_last.
Qed.

(** C5.  PF normalization: for every non-empty digit sequence, when
    every transition count out of the current last digit is 0 all ten
    PF scores are 0, and otherwise the maximum of the ten scores is
    exactly 30: some digit scores 30 and no digit scores more. *)
Theorem pf_normalized (digits : list digit) :
  Forall valid_digit digits ->
  digits <> [] ->
  let count d := follows (List.last digits None) d digits in
  let score d := scoreAt (getPairingFrequencyScores digits) d in
  ((forall d, (d < 10)%nat -> count d = 0%nat) ->
   forall d, (d < 10)%nat -> score d =n= Num 0)
  /\ ((exists d, (d < 10)%nat /\ count d <> 0%nat) ->
      (exists d, (d < 10)%nat /\ score d =n= Num 30)
      /\ forall d, (d < 10)%nat -> num_le (score d) (Num 30) = true).
Proof.
  intros _ _ count score. split.
  - intros Hzero d Hd. subst score. simpl.
    rewrite getPairingFrequencyScores_at by exact Hd.
    fold (count d). rewrite (Hzero d Hd). simpl.
    unfold Qdiv. ring.
  - intros (d0 & Hd0 & Hpos).
    pose proof (transitionCounts_ge digits d0 Hd0) as Hge0. fold (count d0) in Hge0.
    assert (Hmax : (1 <= list_max (transitionCounts digits))%nat) by lia.
    assert (HorOne : orOne (list_max (transitionCounts digits))
                     = list_max (transitionCounts digits))
      by (unfold orOne; destruct (list_max (transitionCounts digits));
          [lia | reflexivity]).
    pose proof (inject_nat_positive _ Hmax) as HQ.
    split.
    + destruct (transitionCounts_attained digits) as (top & Htop & Heq).
      exists top. split; [exact Htop|]. subst score. simpl.
      rewrite getPairingFrequencyScores_at by exact Htop.
      rewrite HorOne, Heq. simpl. field.
      intros H. rewrite H in HQ. exact (Qlt_irrefl _ HQ).
    + intros d Hd. subst score. simpl.
      rewrite getPairingFrequencyScores_at by exact Hd.
      rewrite HorOne. apply Qle_bool_iff.
      pose proof (transitionCounts_ge digits d Hd) as Hge.
      apply Qle_trans with (1 * 30); [|discriminate].
      apply Qmult_le_compat_r; [|discriminate].
      apply Qle_shift_div_r; [exact HQ|].
      rewrite Qmult_1_l. rewrite <- Zle_Qle. lia.
Qed.

Lemma pf_normalized_witness :
  let digits := map Some [3;3;3;7;3]%nat in
  Forall valid_digit digits /\ digits <> []
  /\ (exists d, (d < 10)%nat /\ follows (List.last digits None) d digits <> 0%nat)
  /\ (exists d, (d < 10)%nat
        /\ scoreAt (getPairingFrequencyScores digits) d =n= Num 30).
Proof.
  intros digits.
  assert (Hvalid : Forall valid_digit digits)
    by (repeat constructor; simpl; lia).
  assert (Hne : digits <> []) by discriminate.
  assert (Hsome : exists d, (d < 10)%nat
                    /\ follows (List.last digits None) d digits <> 0%nat)
    by (exists 7%nat; split; [lia | discriminate]).
  repeat (split; [assumption|]).
  exact (proj1 (proj2 (pf_normalized digits Hvalid Hne) Hsome)).
Defined.

(** C4, as the code has it.  For every digit sequence whose last digit
    is 3 and in which 3 is followed by 3 exactly twice, by 7 exactly
    once and by no other digit, the PF scores are 30 for digit 3
    (2 / 2 * 30), 15 for digit 7 (1 / 2 * 30) and 0 for every other
    digit. *)
Theorem pf_scenario (digits : list digit) :
  Forall valid_digit digits ->
  last digits = Some (Some 3%nat) ->
  follows (Some 3%nat) 3 digits = 2%nat ->
  follows (Some 3%nat) 7 digits = 1%nat ->
  (forall d, (d < 10)%nat -> d <> 3%nat -> d <> 7%nat ->
             follows (Some 3%nat) d digits = 0%nat) ->
  let score d := scoreAt (getPairingFrequencyScores digits) d in
  score 3%nat =n= Num 30
  /\ score 7%nat =n= Num 15
  /\ forall d, (d < 10)%nat -> d <> 3%nat -> d <> 7%nat -> score d =n= Num 0.
Proof.
  intros _ Hlast H3 H7 Hother score.
  apply last_default in Hlast.
  assert (Hmax : list_max (transitionCounts digits) = 2%nat).
  { unfold transitionCounts. rewrite Hlast. simpl map.
    rewrite H3, H7, !Hother by lia. reflexivity. }
  assert (Hat : forall d, (d < 10)%nat ->
            score d = Num (inject_Z (Z.of_nat (follows (Some 3%nat) d digits))
                           / inject_Z 2 * 30)).
  { intros d Hd. subst score. simpl.
    rewrite getPairingFrequencyScores_at by exact Hd.
    rewrite Hmax, Hlast. reflexivity. }
  split; [|split].
  - rewrite Hat, H3 by lia. reflexivity.
  - rewrite Hat, H7 by lia. reflexivity.
  - intros d Hd Hn3 Hn7. rewrite Hat, Hother by assumption. reflexivity.
Qed.

Lemma pf_scenario_witness :
  let digits := map Some [3;3;3;7;3]%nat in
  scoreAt (getPairingFrequencyScores digits) 3 =n= Num 30
  /\ scoreAt (getPairingFrequencyScores digits) 7 =n= Num 15
  /\ forall d, (d < 10)%nat -> d <> 3%nat -> d <> 7%nat ->
       scoreAt (getPairingFrequencyScores digits) d =n= Num 0.
Proof.
  intros digits. apply (pf_scenario digits).
  - repeat constructor; simpl; lia.
  - reflexivity.
  - reflexivity.
  - reflexivity.
  - intros d Hd Hn3 Hn7.
    do 10 (destruct d as [|d]; [reflexivity || contradiction|]). lia.
Defined.

(** C4 as stated fails: in [3;3;3;7;3] the last digit is 3, followed
    by 3 twice and by 7 once, and the scores of 3 and 7 are 30 and 15,
    not 20 and 10. *)
Lemma pf_scenario_not_20_10 :
  let digits := map Some [3;3;3;7;3]%nat in
  last digits = Some (Some 3%nat)
  /\ map (fun d => follows (Some 3%nat) d digits) (seq 0 10)
     = [0; 0; 0; 2; 0; 0; 0; 1; 0; 0]%nat
  /\ scoreAt (getPairingFrequencyScores digits) 3 =n= Num 30
  /\ scoreAt (getPairingFrequencyScores digits) 7 =n= Num 15
  /\ ~ scoreAt (getPairingFrequencyScores digits) 3 =n= Num 20
  /\ ~ scoreAt (getPairingFrequencyScores digits) 7 =n= Num 10.
Proof.
  intros digits.
  repeat split; try reflexivity; vm_compute; discriminate.
Qed.

(** ** Smoother *)

Lemma kalmanUpdate_estimate (state : Kalman.state) (z : number) :
  Kalman.x (fst (kalmanUpdate state z)) = Some (snd (kalmanUpdate state z)).
Proof. reflexivity. Qed.

Lemma inf_times_not_finite (positive : bool) (q : Q) :
  is_finite (inf_times positive q) = false.
Proof.
  unfold inf_times.
  destruct (Qeq_bool q 0); [reflexivity|].
  destruct (xorb positive (Qlt_bool 0 q)); reflexivity.
Qed.

Lemma num_sub_not_finite (z x : number) :
  is_finite z = false -> is_finite (num_sub z x) = false.
Proof. destruct z, x; simpl; congruence. Qed.

Lemma num_mul_not_finite (k d : number) :
  is_finite d = false -> is_finite (num_mul k d) = false.
Proof.
  destruct k, d; simpl; try congruence; intros _;
    apply inf_times_not_finite.
Qed.

Lemma num_add_not_finite (x d : number) :
  is_finite d = false -> is_finite (num_add x d) = false.
Proof. destruct x, d; simpl; congruence. Qed.

Create HintDb not_finite.
#[local] Hint Resolve num_sub_not_finite num_mul_not_finite
  num_add_not_finite : not_finite.

Lemma kalmanUpdate_not_finite (state : Kalman.state) (z : number) :
  is_finite z = false -> is_finite (snd (kalmanUpdate state z)) = false.
Proof.
  intros Hz. unfold kalmanUpdate. cbn [snd]. auto with not_finite.
Qed.

Lemma first_gain :
  num_div (num_add (Num 1) KALMAN_R)
          (num_add (num_add (Num 1) KALMAN_R) KALMAN_Q)
  = Num ((1 + 0.01) / (1 + 0.01 + 0.1)).
Proof. reflexivity. Qed.

(** C2, as the code has it.  Applied to the initial filter state
    (estimate unset, errorCovariance 1), the smoother sets the estimate
    to the observation and goes on with the regular update: for every
    finite observation [z] the estimate is [z] and the error covariance
    is (1 - K) * 1.01 with gain K = 1.01 / 1.11, that is 101/1110
    (about 0.091); for an observation that is not finite the estimate
    is NaN. *)
Theorem kalman_first_call (z : number) :
  let state := fst (kalmanUpdate (Kalman.mk None (Num 1)) z) in
  Kalman.p state =n= Num (101 # 1110)
  /\ match z with
     | Num q => exists e, Kalman.x state = Some e /\ e =n= Num q
     | _ => Kalman.x state = Some NaN
     end.
Proof.
  split.
  - vm_compute. reflexivity.
  - destruct z as [q| | |]; try reflexivity.
    eexists. split; [reflexivity|].
    cbn [kalmanUpdate fst snd Kalman.x Kalman.p].
    rewrite first_gain. simpl. ring.
Qed.

(** C2 as stated fails: after the first observation 5 the error
    covariance is 101/1110, not 1. *)
Lemma kalman_first_call_covariance :
  let state := fst (kalmanUpdate (Kalman.mk None (Num 1)) (Num 5)) in
  Kalman.p state =n= Num (101 # 1110) /\ ~ Kalman.p state =n= Num 1.
Proof.
  split.
  - vm_compute. reflexivity.
  - vm_compute. discriminate.
Qed.

(** ** A tick whose price is not finite *)

Lemma num_add_NaN_r (a : number) : num_add a NaN = NaN.
Proof. destruct a; reflexivity. Qed.

Lemma num_sub_NaN_r (a : number) : num_sub a NaN = NaN.
Proof. destruct a; reflexivity. Qed.

Lemma fold_add_NaN (l : list number) : fold_left num_add l NaN = NaN.
Proof. induction l as [|a l IH]; [reflexivity | exact IH]. Qed.

Lemma fold_add_snoc_NaN (l : list number) (a : number) :
  fold_left num_add (l ++ [NaN]) a = NaN.
Proof. rewrite fold_left_app. simpl. apply num_add_NaN_r. Qed.

Lemma slice_last_snoc {A : Type} (n : nat) (l : list A) (x : A) :
  (1 <= n)%nat -> exists l', slice_last n (l ++ [x]) = l' ++ [x].
Proof.
  intros Hn. unfold slice_last. rewrite length_app. simpl length.
  exists (skipn (length l + 1 - n) l).
  rewrite skipn_app.
  replace (length l + 1 - n - length l)%nat with 0%nat by lia.
  reflexivity.
Qed.

Lemma lastDigitOf_not_finite (v : number) :
  is_finite v = false -> lastDigitOf v = None.
Proof. destruct v; simpl; [discriminate | reflexivity ..]. Qed.

(** The volatility gate is closed when the latest digit is NaN. *)
Lemma getVolatilityCheck_NaN (digits : list digit) :
  getVolatilityCheck (digits ++ [None : digit]) = Some false.
Proof.
  unfold getVolatilityCheck.
  destruct (slice_last_snoc 30 digits None) as [l' ->]; [lia|].
  rewrite map_app. simpl (map digit_value [_]).
  set (slice := map digit_value l' ++ [NaN]).
  assert (Hmean : num_div (fold_left num_add slice (Num 0)) (of_nat (length slice))
                  = NaN)
    by (subst slice; rewrite fold_add_snoc_NaN; reflexivity).
  rewrite Hmean.
  rewrite (map_ext _ (fun _ => NaN))
    by (intros a; rewrite num_sub_NaN_r; reflexivity).
  subst slice. destruct (map digit_value l') as [|a m]; simpl.
  - reflexivity.
  - rewrite fold_add_NaN. reflexivity.
Qed.

Lemma pushed_history (history : list number) (v : number) :
  exists h,
    (if (STABILITY_ANALYSIS_TICKS + 5 <? length (history ++ [v]))%nat
     then tail (history ++ [v]) else history ++ [v]) = h ++ [v].
Proof.
  destruct (STABILITY_ANALYSIS_TICKS + 5 <? length (history ++ [v]))%nat eqn:E.
  - destruct history as [|a history].
    + simpl in E. discriminate E.
    + exists history. reflexivity.
  - exists history. reflexivity.
Qed.

(** No signal is opened on a history whose latest price is not finite. *)
Lemma prediction_not_finite (i : instrument) (h : list number) (v : number) :
  priceHistory i = h ++ [v] ->
  is_finite v = false ->
  exists reason, getAIProbabilityPrediction i = Some (HOLD reason).
Proof.
  intros Hh Hv. unfold getAIProbabilityPrediction.
  destruct (length (priceHistory i) <? ANALYSIS_TICKS)%nat.
  - eexists. reflexivity.
  - rewrite Hh, map_app. simpl (map lastDigitOf [v]).
    rewrite (lastDigitOf_not_finite v Hv), getVolatilityCheck_NaN.
    eexists. reflexivity.
Qed.

Lemma pushed_kept (history : list number) (v : number) :
  (if (STABILITY_ANALYSIS_TICKS + 5 <? length (history ++ [v]))%nat
   then tail (history ++ [v]) else history ++ [v])
  = (if (STABILITY_ANALYSIS_TICKS + 5 <=? length history)%nat
     then tail history else history) ++ [v].
Proof.
  rewrite length_app. cbn [length].
  destruct (STABILITY_ANALYSIS_TICKS + 5 <=? length history)%nat eqn:E.
  - apply Nat.leb_le in E.
    replace (STABILITY_ANALYSIS_TICKS + 5 <? length history + 1)%nat with true
      by (symmetry; apply Nat.ltb_lt; lia).
    destruct history; [simpl in E; lia | reflexivity].
  - apply Nat.leb_gt in E.
    replace (STABILITY_ANALYSIS_TICKS + 5 <? length history + 1)%nat with false
      by (symmetry; apply Nat.ltb_ge; lia).
    reflexivity.
Qed.

(** C3, as the code has it.  For every known instrument and every tick
    whose price is not a finite number, [handleTick] processes the tick
    like any other: the smoother runs and its estimate becomes a value
    that is not finite, that value is appended to the price history
    (behind the prices already there, the oldest of which is dropped
    when the history is full), and nothing else of the instrument
    changes: no signal is opened on that tick and no evaluation is
    scheduled. *)
Theorem handleTick_not_finite (tick : Tick.t) (now : Z) (w : world)
    (i : instrument) :
  instruments w !! Tick.symbol tick = Some i ->
  is_finite (Tick.quote tick) = false ->
  let state := fst (kalmanUpdate (kalmanState i) (Tick.quote tick)) in
  let estimate := snd (kalmanUpdate (kalmanState i) (Tick.quote tick)) in
  let kept :=
    if (STABILITY_ANALYSIS_TICKS + 5 <=? length (priceHistory i))%nat
    then tail (priceHistory i) else priceHistory i in
  is_finite estimate = false
  /\ Kalman.x state = Some estimate
  /\ exists w',
       handleTick tick now w = Some w'
       /\ instruments w'
          = <[Tick.symbol tick := with_tick state (kept ++ [estimate]) i]>
              (instruments w)
       /\ timers w' = timers w
       /\ file w' = file w.
Proof.
  intros Hi Hz state estimate kept.
  split; [apply kalmanUpdate_not_finite, Hz|].
  split; [reflexivity|].
  unfold handleTick. rewrite Hi.
  pose proof (kalmanUpdate_not_finite (kalmanState i) (Tick.quote tick) Hz) as Hest.
  destruct (kalmanUpdate (kalmanState i) (Tick.quote tick)) as [st est] eqn:Ek.
  subst state estimate. cbn [fst snd] in *.
  rewrite pushed_kept. fold kept.
  unfold runAnalysis. cbn [instruments broadcast with_instrument].
  rewrite lookup_insert_eq. cbn [activeSignal with_tick].
  destruct (activeSignal i).
  - eexists. repeat split.
  - destruct (prediction_not_finite (with_tick st (kept ++ [est]) i) kept est)
      as [reason Hr]; [reflexivity | exact Hest |].
    rewrite Hr. eexists. repeat split.
Qed.

Lemma handleTick_not_finite_witness :
  let w := mkWorld {[ "1HZ100V"%string := seasoned ]} NoFile Written [] [] in
  let tick := Tick.mk "1HZ100V" PosInf in
  let state := fst (kalmanUpdate (kalmanState seasoned) (Tick.quote tick)) in
  instruments w !! Tick.symbol tick = Some seasoned
  /\ is_finite (Tick.quote tick) = false
  /\ Kalman.x state = Some PosInf
  /\ exists w',
       handleTick tick 0 w = Some w'
       /\ instruments w'
          = <[Tick.symbol tick :=
                with_tick state ([Num 100.07; Num 100.12] ++ [PosInf]) seasoned]>
              (instruments w)
       /\ timers w' = timers w
       /\ file w' = file w.
Proof.
  intros w tick state.
  assert (Hi : instruments w !! Tick.symbol tick = Some seasoned)
    by apply lookup_singleton_eq.
  assert (Hz : is_finite (Tick.quote tick) = false) by reflexivity.
  split; [exact Hi|]. split; [exact Hz|].
  exact (proj2 (handleTick_not_finite tick 0 w seasoned Hi Hz)).
Defined.

(** C3 as stated fails.  A NaN tick, and likewise a +Infinity tick, on a
    freshly initialized instrument sets the filter estimate to NaN and
    appends NaN to the history; on an instrument that holds two prices
    it sets the estimate to NaN, respectively +Infinity, and appends
    that value behind the two prices. *)
Lemma nan_tick_corrupts_state :
  let after w z :=
    w' ← handleTick (Tick.mk "1HZ100V" z) 0 w;
    i ← instruments w' !! "1HZ100V";
    Some (Kalman.x (kalmanState i), priceHistory i) in
  let w2 := with_instrument "1HZ100V" seasoned started in
  after started NaN = Some (Some NaN, [NaN])
  /\ after started PosInf = Some (Some NaN, [NaN])
  /\ after w2 NaN = Some (Some NaN, [Num 100.07; Num 100.12; NaN])
  /\ after w2 PosInf = Some (Some PosInf, [Num 100.07; Num 100.12; PosInf]).
Proof. repeat split; vm_compute; reflexivity. Qed.

(** ** Adaptive learner *)

Lemma bounded_finite (v : number) :
  bounded v -> exists q, v = Num q /\ (1 # 2) <= q <= 2.
Proof.
  intros [Hlo Hhi]. destruct v as [q| | |]; try discriminate.
  exists q. split; [reflexivity|].
  apply Qle_bool_iff in Hlo, Hhi. split.
  - apply Qle_trans with 0.5; [discriminate | exact Hlo].
  - apply Qle_trans with 2.0; [exact Hhi | discriminate].
Qed.

Lemma in_range_finite (w : Weights.t) : in_range w -> all_finite w.
Proof.
  intros H m. destruct (bounded_finite _ (H m)) as (q & -> & _). reflexivity.
Qed.

Lemma clamp_value (q : Q) :
  clamp (Num q)
  = if Qlt_bool q 2.0
    then (if Qlt_bool 0.5 q then Num q else Num 0.5)
    else Num 2.0.
Proof.
  unfold clamp, Math_min, Math_max. simpl num_lt.
  destruct (Qlt_bool q 2.0); reflexivity.
Qed.

Lemma clamp_bounded (v : number) : is_finite v = true -> bounded (clamp v).
Proof.
  destruct v as [q| | |]; try discriminate. intros _.
  rewrite clamp_value.
  destruct (Qlt_bool q 2.0) eqn:Ehi; [|split; reflexivity].
  destruct (Qlt_bool 0.5 q) eqn:Elo; [|split; reflexivity].
  apply Qlt_bool_iff in Ehi, Elo.
  split; apply Qle_bool_iff, Qlt_le_weak; assumption.
Qed.

Lemma clampAll_in_range (w : Weights.t) : all_finite w -> in_range (clampAll w).
Proof.
  intros H m. destruct m; simpl; apply clamp_bounded.
  - exact (H LDF).
  - exact (H RECENCY).
  - exact (H PF).
Qed.

Lemma get_clampAll (m : model) (w : Weights.t) :
  Weights.get m (clampAll w) = clamp (Weights.get m w).
Proof. destruct m; reflexivity. Qed.

Lemma get_set_same (m : model) (v : number) (w : Weights.t) :
  Weights.get m (Weights.set m v w) = v.
Proof. destruct m; reflexivity. Qed.

Lemma set_finite (m : model) (v : number) (w : Weights.t) :
  is_finite v = true -> all_finite w -> all_finite (Weights.set m v w).
Proof.
  intros Hv Hw m'.
  destruct m, m'; simpl; solve [exact Hv | apply (Hw LDF) | apply (Hw RECENCY) | apply (Hw PF)].
Qed.

Lemma raise_finite (m : model) (q : Q) (w : Weights.t) :
  all_finite w -> all_finite (raise m (Num q) w).
Proof.
  intros Hw. apply set_finite; [|exact Hw].
  specialize (Hw m). destruct (Weights.get m w); try discriminate. reflexivity.
Qed.

Lemma lower_finite (m : model) (q : Q) (w : Weights.t) :
  all_finite w -> all_finite (lower m (Num q) w).
Proof.
  intros Hw. apply set_finite; [|exact Hw].
  specialize (Hw m). destruct (Weights.get m w); try discriminate. reflexivity.
Qed.

(** One update keeps a weight set within the bounds, WIN or LOSS. *)
Lemma learn_in_range (signal : Signal.t) (finalDigit : digit) (w w' : Weights.t) :
  in_range w -> learn signal finalDigit w = Some w' -> in_range w'.
Proof.
  intros Hw. apply in_range_finite in Hw. unfold learn.
  destruct (digit_eqb finalDigit (Some (Signal.predictedDigit signal))).
  - destruct (rankModels _ finalDigit) as [|first [|second rest]];
      try discriminate.
    simpl. intros [= <-]. apply clampAll_in_range.
    apply raise_finite, raise_finite, Hw.
  - destruct (rankModels _ (Some _)) as [|first rest]; try discriminate.
    simpl. intros [= <-]. apply clampAll_in_range.
    apply lower_finite, Hw.
Qed.

Lemma weights_ok_insert (s symbol : string) (i : instrument) (w : world) :
  weights_ok s w -> (symbol = s -> in_range (weights i)) ->
  weights_ok s (with_instrument symbol i w).
Proof.
  intros Hw Hi j. unfold with_instrument. cbn [instruments].
  rewrite lookup_insert. destruct (decide (symbol = s)) as [Heq|Hne].
  - intros [= <-]. exact (Hi Heq).
  - apply Hw.
Qed.

Lemma weights_ok_same (s : string) (w w' : world) :
  instruments w' = instruments w -> weights_ok s w -> weights_ok s w'.
Proof. intros H Hw j. rewrite H. apply Hw. Qed.

Lemma saveWeights_instruments (w : world) :
  instruments (saveWeights w) = instruments w.
Proof. unfold saveWeights. destruct (disk w); reflexivity. Qed.

Lemma backtestAndLearn_ok (s symbol : string) (w w' : world) :
  weights_ok s w -> backtestAndLearn symbol w = Some w' -> weights_ok s w'.
Proof.
  intros Hw. unfold backtestAndLearn.
  destruct (instruments w !! symbol) as [i|] eqn:Hi;
    [|destruct (inherited symbol); [intros [= <-]; exact Hw | discriminate]].
  destruct (activeSignal i) as [signal|]; [|intros [= <-]; exact Hw].
  destruct (last (priceHistory i)) as [finalPrice|]; [|discriminate].
  destruct (learn signal (lastDigitOf finalPrice) (weights i)) as [weights'|] eqn:Hl;
    [|discriminate].
  intros [= <-].
  apply (weights_ok_same _ _ _ (saveWeights_instruments _)).
  apply weights_ok_insert; [exact Hw|].
  intros <-. exact (learn_in_range _ _ _ _ (Hw _ Hi) Hl).
Qed.

Lemma evaluate_ok (s symbol : string) (w w' : world) :
  weights_ok s w -> evaluate symbol w = Some w' -> weights_ok s w'.
Proof.
  intros Hw. unfold evaluate.
  destruct (instruments w !! symbol) as [i|]; [|discriminate].
  destruct (activeSignal i); [|intros [= <-]; exact Hw].
  destruct (backtestAndLearn symbol w) as [w1|] eqn:Hb; [|discriminate].
  pose proof (backtestAndLearn_ok s _ _ _ Hw Hb) as Hw1.
  destruct (instruments w1 !! symbol) as [i1|] eqn:Hi1; [|discriminate].
  intros [= <-]. apply weights_ok_insert; [exact Hw1|].
  intros <-. exact (Hw1 _ Hi1).
Qed.

Lemma runAnalysis_ok (s symbol : string) (now : Z) (w w' : world) :
  weights_ok s w -> runAnalysis symbol now w = Some w' -> weights_ok s w'.
Proof.
  intros Hw. unfold runAnalysis.
  destruct (instruments w !! symbol) as [i|] eqn:Hi; [|discriminate].
  destruct (activeSignal i); [intros [= <-]; exact Hw|].
  destruct (getAIProbabilityPrediction i) as [[reason|d c t ms]|]; [| |discriminate].
  - intros [= <-]. exact Hw.
  - intros [= <-].
    apply (weights_ok_insert s symbol (with_signal _ i) w Hw).
    intros <-. exact (Hw _ Hi).
Qed.

Lemma handleTick_ok (s : string) (tick : Tick.t) (now : Z) (w w' : world) :
  weights_ok s w -> handleTick tick now w = Some w' -> weights_ok s w'.
Proof.
  intros Hw. unfold handleTick.
  destruct (instruments w !! Tick.symbol tick) as [i|] eqn:Hi;
    [|destruct (inherited (Tick.symbol tick));
      [discriminate | intros [= <-]; exact Hw]].
  destruct (kalmanUpdate (kalmanState i) (Tick.quote tick)) as [state smoothed].
  apply runAnalysis_ok.
  apply (weights_ok_insert s _ (with_tick _ _ i) w Hw).
  intros <-. exact (Hw _ Hi).
Qed.

Lemma step_ok (s : string) (e : event) (w w' : world) :
  weights_ok s w -> step e w = Some w' -> weights_ok s w'.
Proof.
  intros Hw. destruct e as [tick now|symbol|symbol]; simpl.
  - apply handleTick_ok, Hw.
  - destruct (clearTimeout symbol (timers w)); [|intros [= <-]; exact Hw].
    apply evaluate_ok. exact Hw.
  - apply backtestAndLearn_ok, Hw.
Qed.

(** The bounds of an instrument's weights survive every run of events. *)
Lemma run_ok (s : string) (events : list event) (w w' : world) :
  weights_ok s w -> run events w = Some w' -> weights_ok s w'.
Proof.
  revert w. induction events as [|e events IH]; intros w Hw; simpl.
  - intros [= <-]. exact Hw.
  - destruct (step e w) as [w1|] eqn:Hs; [|discriminate].
    apply IH. exact (step_ok _ _ _ _ Hw Hs).
Qed.

Lemma insertSorted_perm {A : Type} (cmp : A -> A -> number) (a : A) (l : list A) :
  Permutation (insertSorted cmp a l) (a :: l).
Proof.
  induction l as [|b l IH]; cbn [insertSorted].
  - reflexivity.
  - destruct (num_gt (cmp b a) (Num 0)); [reflexivity|].
    rewrite IH. apply perm_swap.
Qed.

Lemma sort_perm {A : Type} (cmp : A -> A -> number) (l : list A) :
  Permutation (sort cmp l) l.
Proof.
  unfold sort.
  assert (H : forall acc, Permutation
            (fold_left (fun sorted a => insertSorted cmp a sorted) l acc)
            (l ++ acc)).
  { induction l as [|a l IH]; intros acc; simpl.
    - reflexivity.
    - rewrite IH, insertSorted_perm. symmetry. apply Permutation_middle. }
  rewrite H, app_nil_r. reflexivity.
Qed.

Lemma sort_length {A : Type} (cmp : A -> A -> number) (l : list A) :
  length (sort cmp l) = length l.
Proof. apply Permutation_length, sort_perm. Qed.

Lemma rankModels_three (s : Scores.t) (d : digit) :
  exists first second third, rankModels s d = [first; second; third].
Proof.
  pose proof (sort_length descending
    [ mkScored (scoreAtDigit (Scores.ldf s) d) LDF;
      mkScored (scoreAtDigit (Scores.recency s) d) RECENCY;
      mkScored (scoreAtDigit (Scores.pf s) d) PF ]) as H.
  fold (rankModels s d) in H.
  destruct (rankModels s d) as [|a [|b [|c [|? ?]]]]; try discriminate H.
  exists a, b, c. reflexivity.
Qed.

(** The weight update never throws. *)
Lemma learn_total (signal : Signal.t) (finalDigit : digit) (w : Weights.t) :
  exists w', learn signal finalDigit w = Some w'.
Proof.
  unfold learn.
  destruct (digit_eqb finalDigit (Some (Signal.predictedDigit signal))).
  - destruct (rankModels_three (Signal.modelScores signal) finalDigit)
      as (a & b & c & ->).
    eexists. reflexivity.
  - destruct (rankModels_three (Signal.modelScores signal)
                (Some (Signal.predictedDigit signal))) as (a & b & c & ->).
    eexists. reflexivity.
Qed.

Lemma backtestAndLearn_total (symbol : string) (w : world) (i : instrument) :
  instruments w !! symbol = Some i ->
  activeSignal i = None \/ priceHistory i <> [] ->
  exists w', backtestAndLearn symbol w = Some w'.
Proof.
  intros Hi Hcase. unfold backtestAndLearn. rewrite Hi.
  destruct (activeSignal i) as [signal|]; [|eexists; reflexivity].
  destruct Hcase as [Hnone|Hne]; [discriminate|].
  destruct (last (priceHistory i)) as [finalPrice|] eqn:Hlast.
  - destruct (learn_total signal (lastDigitOf finalPrice) (weights i)) as [w' ->].
    eexists. reflexivity.
  - apply last_None in Hlast. contradiction.
Qed.

Lemma backtestAndLearn_loss (symbol : string) (m : model) (i : instrument)
    (w w1 : world) :
  penalized i = Some m ->
  backtestAndLearn symbol (with_instrument symbol i w) = Some w1 ->
  weightOf symbol m w1
  = Some (clamp (num_sub (Weights.get m (weights i)) (num_mul adj (Num 2)))).
Proof.
  unfold penalized, backtestAndLearn, with_instrument. cbn [instruments].
  rewrite lookup_insert_eq.
  destruct (activeSignal i) as [signal|]; [|discriminate].
  destruct (last (priceHistory i)) as [finalPrice|]; [|discriminate].
  unfold learn.
  destruct (digit_eqb (lastDigitOf finalPrice) (Some (Signal.predictedDigit signal)));
    [discriminate|].
  destruct (rankModels (Signal.modelScores signal)
              (Some (Signal.predictedDigit signal))) as [|first rest];
    [discriminate|].
  simpl. intros [= <-] [= <-].
  unfold weightOf. rewrite saveWeights_instruments. cbn [instruments].
  rewrite lookup_insert_eq. simpl.
  rewrite get_clampAll. unfold lower. rewrite get_set_same. reflexivity.
Qed.

Lemma losing_streak_bound (symbol : string) (m : model) (n : nat) (w w' : world) :
  losing_streak symbol m n w w' ->
  weights_ok symbol w ->
  forall (q B : Q),
    weightOf symbol m w = Some (Num q) -> q <= B ->
    weights_ok symbol w'
    /\ exists q', weightOf symbol m w' = Some (Num q')
         /\ (1 # 2) <= q' <= 2
         /\ (q' <= B - inject_Z (Z.of_nat n) / 10 \/ q' == 1 # 2).
Proof.
  induction 1 as [w|n w w1 w2 i i' Hi Hsame Hpen Hstep Hrest IH];
    intros Hok q B Hq HB.
  - split; [exact Hok|]. exists q. split; [exact Hq|].
    unfold weightOf in Hq.
    destruct (instruments w !! symbol) as [i|] eqn:Hi; [|discriminate].
    injection Hq as Hq.
    destruct (bounded_finite _ (Hok _ Hi m)) as (q0 & Hq0 & Hrange).
    rewrite Hq in Hq0. injection Hq0 as <-.
    split; [exact Hrange|]. left.
    assert (HB0 : B - inject_Z (Z.of_nat 0) / 10 == B) by (simpl; field).
    rewrite HB0. exact HB.
  - assert (Hok' : weights_ok symbol (with_instrument symbol i' w))
      by (apply weights_ok_insert; [exact Hok | intros _; rewrite Hsame; exact (Hok _ Hi)]).
    pose proof (backtestAndLearn_ok _ _ _ _ Hok' Hstep) as Hok1.
    pose proof (backtestAndLearn_loss _ _ _ _ _ Hpen Hstep) as Hw1.
    unfold weightOf in Hq. rewrite Hi in Hq. injection Hq as Hq.
    rewrite Hsame, Hq in Hw1.
    destruct (bounded_finite _ (Hok _ Hi m)) as (q0 & Hq0 & Hlo & Hhi).
    rewrite Hq in Hq0. injection Hq0 as <-.
    change (num_sub (Num q) (num_mul adj (Num 2)))
      with (Num (q + - (0.05 * 2))) in Hw1.
    rewrite clamp_value in Hw1.
    assert (Hstepq : q + - (0.05 * 2) == q - (1 # 10)) by ring.
    assert (HSn : inject_Z (Z.of_nat (S n)) == inject_Z (Z.of_nat n) + 1)
      by (rewrite Nat2Z.inj_succ, <- Z.add_1_r, inject_Z_plus; reflexivity).
    destruct (Qlt_bool (q + - (0.05 * 2)) 2.0) eqn:E2.
    + destruct (Qlt_bool 0.5 (q + - (0.05 * 2))) eqn:E1.
      * destruct (IH Hok1 _ (B - (1 # 10)) Hw1) as (Hok2 & q' & Hq' & Hr & Hb).
        { rewrite Hstepq. apply Qplus_le_l. exact HB. }
        split; [exact Hok2|]. exists q'. split; [exact Hq'|]. split; [exact Hr|].
        destruct Hb as [Hb|Hb]; [left|right; exact Hb].
        rewrite HSn. eapply Qle_trans; [exact Hb|].
        apply Qle_lteq. right. field.
      * destruct (IH Hok1 _ (1 # 2) Hw1) as (Hok2 & q' & Hq' & Hr & Hb).
        { discriminate. }
        split; [exact Hok2|]. exists q'. split; [exact Hq'|]. split; [exact Hr|].
        right. destruct Hb as [Hb|Hb]; [|exact Hb].
        apply Qle_antisym; [|apply Hr].
        eapply Qle_trans; [exact Hb|].
        rewrite <- (Qplus_0_r (1 # 2)) at 2. apply Qplus_le_r.
        assert (H0 : 0 <= inject_Z (Z.of_nat n) / 10).
        { apply Qle_shift_div_l; [reflexivity|].
          rewrite Qmult_0_l. change 0 with (inject_Z 0).
          rewrite <- Zle_Qle. lia. }
        apply (Qopp_le_compat 0). exact H0.
    + exfalso. apply Qlt_bool_false in E2.
      assert (Hlt : q + - (0.05 * 2) < 2.0).
      { rewrite Hstepq. apply Qle_lt_trans with (2 - (1 # 10)).
        - apply Qplus_le_l. exact Hhi.
        - reflexivity. }
      exact (Qlt_not_le _ _ Hlt E2).
Qed.

Lemma with_instrument_id (symbol : string) (i : instrument) (w : world) :
  instruments w !! symbol = Some i -> with_instrument symbol i w = w.
Proof.
  intros Hi. destruct w as [ins f wr s t]. unfold with_instrument.
  cbn [instruments file disk sent timers] in *.
  rewrite (insert_id ins symbol i Hi). reflexivity.
Qed.

Lemma backtestAndLearn_instrument (symbol : string) (m : model)
    (i : instrument) (w w1 : world) :
  instruments w !! symbol = Some i ->
  penalized i = Some m ->
  backtestAndLearn symbol w = Some w1 ->
  exists weights', instruments w1 !! symbol = Some (with_weights weights' i).
Proof.
  intros Hi Hpen. unfold backtestAndLearn. rewrite Hi.
  unfold penalized in Hpen.
  destruct (activeSignal i) as [signal|]; [|discriminate].
  destruct (last (priceHistory i)) as [finalPrice|]; [|discriminate].
  destruct (learn signal (lastDigitOf finalPrice) (weights i)) as [weights'|];
    [|discriminate].
  intros [= <-]. exists weights'.
  rewrite saveWeights_instruments. cbn [with_instrument instruments].
  apply lookup_insert_eq.
Qed.

(** Invoking the learning step again and again on an instrument whose
    pending signal is a LOSS is a losing streak. *)
Lemma repeat_learns_streak (symbol : string) (m : model) (n : nat) :
  forall (w w' : world) (i : instrument),
    instruments w !! symbol = Some i ->
    penalized i = Some m ->
    run (repeat (Learns symbol) n) w = Some w' ->
    losing_streak symbol m n w w'.
Proof.
  induction n as [|n IH]; intros w w' i Hi Hpen; simpl.
  - intros [= <-]. constructor.
  - destruct (backtestAndLearn symbol w) as [w1|] eqn:Hstep; [|discriminate].
    intros Hrun.
    destruct (backtestAndLearn_instrument _ _ _ _ _ Hi Hpen Hstep)
      as [weights' Hi1].
    apply (streak_loss symbol m n w w1 w' i i Hi eq_refl Hpen).
    + rewrite (with_instrument_id _ _ _ Hi). exact Hstep.
    + apply (IH w1 w' _ Hi1); [exact Hpen | exact Hrun].
Qed.

(** C1.  Weight bounds: when the three weights of an instrument lie in
    [0.5, 2.0], they still do after any number of events of the engine,
    among them any number of invocations of the learning step with WIN
    or LOSS outcomes; and after a further streak of [n >= 1] LOSS steps
    that penalize one model, that model's weight is within the bounds,
    so never below 0.5, and is exactly 0.5 from the fifteenth step
    on. *)
Theorem weights_stay_bounded (events : list event) (w w' w'' : world)
    (symbol : string) (m : model) (n : nat) :
  weights_ok symbol w ->
  run events w = Some w' ->
  losing_streak symbol m n w' w'' ->
  weights_ok symbol w'
  /\ weights_ok symbol w''
  /\ ((1 <= n)%nat ->
      exists v, weightOf symbol m w'' = Some v
        /\ bounded v
        /\ ((15 <= n)%nat -> v =n= Num 0.5)).
Proof.
  intros Hok Hrun Hstreak.
  pose proof (run_ok _ _ _ _ Hok Hrun) as Hok'.
  split; [exact Hok'|].
  destruct Hstreak as [w'|n w' w1 w2 i i' Hi Hsame Hpen Hstep Hrest].
  - split; [exact Hok'|]. lia.
  - destruct (bounded_finite _ (Hok' _ Hi m)) as (q & Hq & Hlo & Hhi).
    assert (Hw : weightOf symbol m w' = Some (Num q))
      by (unfold weightOf; rewrite Hi; simpl; rewrite Hq; reflexivity).
    destruct (losing_streak_bound symbol m (S n) w' w2
                (streak_loss _ _ _ _ _ _ _ _ Hi Hsame Hpen Hstep Hrest)
                Hok' q 2 Hw Hhi)
      as (Hok2 & q' & Hq' & Hr & Hb).
    split; [exact Hok2|]. intros _.
    exists (Num q'). split; [exact Hq'|]. split.
    + split; apply Qle_bool_iff.
      * apply Qle_trans with (1 # 2); [discriminate | apply Hr].
      * apply Qle_trans with 2; [apply Hr | discriminate].
    + intros H15. simpl.
      destruct Hb as [Hb|Hb]; [|rewrite Hb; reflexivity].
      apply Qle_antisym; [|apply Qle_trans with (1 # 2); [discriminate | apply Hr]].
      eapply Qle_trans; [exact Hb|].
      apply Qle_trans with (2 - inject_Z 15 / 10); [|discriminate].
      apply Qplus_le_r, Qopp_le_compat.
      apply Qmult_le_compat_r; [|discriminate].
      rewrite <- Zle_Qle. lia.
Qed.

Lemma weights_stay_bounded_witness :
  let s := "1HZ100V"%string in
  let captured :=
    Scores.mk (map of_Z [3; 3; 3; 12; 3; 3; 3; 0; 3; 3]%Z)
              (map of_Z [5; 4; 3; 100; 2; 1; 9; 0; 8; 7]%Z)
              (map of_Z [0; 0; 0; 0; 30; 0; 0; 15; 0; 0]%Z) in
  let i0 := mkInstrument s [Num 100.07] (Kalman.mk (Some (Num 100.07)) (Num 1))
                         INITIAL_WEIGHTS (Some (Signal.mk 3 captured 0)) 0 None in
  let w := mkWorld {[ s := i0 ]} NoFile Written [] [] in
  let w' := default w (run [Learns s] w) in
  let w'' := default w' (run (repeat (Learns s) 15) w') in
  weights_ok s w
  /\ run [Learns s] w = Some w'
  /\ losing_streak s RECENCY 15 w' w''
  /\ weights_ok s w''
  /\ exists v, weightOf s RECENCY w'' = Some v /\ v =n= Num 0.5.
Proof.
  intros s captured i0 w w' w''.
  assert (Hok : weights_ok s w).
  { intros i Hi. unfold w in Hi. cbn [instruments] in Hi.
    apply lookup_singleton_Some in Hi. destruct Hi as [_ <-].
    intros m. destruct m; split; reflexivity. }
  assert (Hrun : run [Learns s] w = Some w') by (vm_compute; reflexivity).
  assert (Hstreak : losing_streak s RECENCY 15 w' w'').
  { apply (repeat_learns_streak s RECENCY 15 w' w''
             (with_weights (Weights.mk (Num 1.0) (clamp (Num (1.0 + - (0.05 * 2)))) (Num 1.0)) i0)).
    - vm_compute. reflexivity.
    - vm_compute. reflexivity.
    - vm_compute. reflexivity. }
  split; [exact Hok|]. split; [exact Hrun|]. split; [exact Hstreak|].
  destruct (weights_stay_bounded [Learns s] w w' w'' s RECENCY 15 Hok Hrun Hstreak)
    as (_ & Hok'' & Hfloor).
  split; [exact Hok''|].
  destruct Hfloor as (v & Hv & _ & H15); [lia|].
  exists v. split; [exact Hv|]. apply H15. lia.
Defined.

(** ** Fusion and certainty threshold *)

Lemma ldf_nonneg (digits : list digit) (d : nat) :
  (d < 10)%nat -> finite_nonneg (scoreAt (getLDFScores digits) d).
Proof.
  intros Hd. rewrite getLDFScores_at by exact Hd. simpl.
  apply Qmult_le_0_compat; [|discriminate].
  rewrite <- (Qplus_opp_r (inject_Z (Z.of_nat (occurrences d digits)))).
  apply Qplus_le_l. rewrite <- Zle_Qle.
  pose proof (maxOccurrences_ge digits d Hd). lia.
Qed.

Lemma recency_nonneg (digits : list digit) (d : nat) :
  (d < 10)%nat -> finite_nonneg (scoreAt (getRecencyScores digits) d).
Proof.
  intros Hd. rewrite getRecencyScores_at by exact Hd.
  pose proof (lastIndexOf_bounds digits d) as Hb.
  destruct (lastIndexOf digits d =? -1)%Z; simpl.
  - discriminate.
  - change 0 with (inject_Z 0). rewrite <- Zle_Qle. lia.
Qed.

Lemma pf_nonneg (digits : list digit) (d : nat) :
  (d < 10)%nat -> finite_nonneg (scoreAt (getPairingFrequencyScores digits) d).
Proof.
  intros Hd. rewrite getPairingFrequencyScores_at by exact Hd. simpl.
  apply Qmult_le_0_compat; [|discriminate].
  apply Qle_shift_div_l.
  - apply inject_nat_positive, orOne_positive.
  - rewrite Qmult_0_l. change 0 with (inject_Z 0). rewrite <- Zle_Qle. lia.
Qed.

Lemma weighted_not_negative (s w : number) :
  finite_nonneg s -> num_le (Num 0) w = true -> not_negative (num_mul s w).
Proof.
  destruct s as [a| | |]; simpl; try contradiction. intros Ha.
  destruct w as [b| | |]; simpl; try discriminate.
  - intros Hb. apply Qle_bool_iff in Hb. apply Qmult_le_0_compat; assumption.
  - intros _. unfold inf_times.
    destruct (Qeq_bool a 0) eqn:E; [exact I|].
    replace (Qlt_bool 0 a) with true; [exact I|].
    symmetry. apply Qlt_bool_iff.
    destruct (Qlt_le_dec 0 a) as [Hlt|Hle]; [exact Hlt|].
    exfalso. apply Qeq_bool_false in E. apply E.
    apply Qle_antisym; assumption.
Qed.

Lemma add_not_negative (a b : number) :
  not_negative a -> not_negative b -> not_negative (num_add a b).
Proof.
  destruct a as [p| | |], b as [q| | |]; simpl; try tauto.
  intros Hp Hq. rewrite <- (Qplus_0_r 0). apply Qplus_le_compat; assumption.
Qed.

Lemma aggregate_not_negative (digits : list digit) (w : Weights.t) (v : number) :
  non_negative w -> In v (aggregate (scoresOf digits) w) -> not_negative v.
Proof.
  intros Hw Hin. unfold aggregate in Hin.
  apply in_map_iff in Hin. destruct Hin as (d & <- & Hd).
  apply in_seq in Hd. assert (Hd10 : (d < 10)%nat) by lia.
  repeat apply add_not_negative.
  - simpl. discriminate.
  - apply weighted_not_negative; [apply ldf_nonneg, Hd10 | exact (Hw LDF)].
  - apply weighted_not_negative; [apply recency_nonneg, Hd10 | exact (Hw RECENCY)].
  - apply weighted_not_negative; [apply pf_nonneg, Hd10 | exact (Hw PF)].
Qed.

Lemma sortedScores_length (finalScores : list number) :
  length (sortedScores finalScores) = length finalScores.
Proof.
  unfold sortedScores.
  rewrite sort_length, length_map, length_combine, length_seq. lia.
Qed.

Lemma sortedScores_In (finalScores : list number) (x : scored nat) :
  In x (sortedScores finalScores) -> In (score x) finalScores.
Proof.
  unfold sortedScores. intros Hin.
  apply (Permutation_in _ (sort_perm _ _)) in Hin.
  apply in_map_iff in Hin. destruct Hin as ([index s] & <- & Hin).
  apply in_combine_r in Hin. exact Hin.
Qed.

Lemma aggregate_length (s : Scores.t) (w : Weights.t) :
  length (aggregate s w) = 10%nat.
Proof. unfold aggregate. rewrite length_map, length_seq. reflexivity. Qed.

(** The fused scores always have a best and a runner-up. *)
Lemma sortedScores_top_two (s : Scores.t) (w : Weights.t) :
  exists best runnerUp rest,
    sortedScores (aggregate s w) = best :: runnerUp :: rest.
Proof.
  pose proof (sortedScores_length (aggregate s w)) as H.
  rewrite aggregate_length in H.
  destruct (sortedScores (aggregate s w)) as [|best [|runnerUp rest]];
    try discriminate H.
  exists best, runnerUp, rest. reflexivity.
Qed.

Lemma confidence_finite (b r : Q) :
  confidenceOf (Num b) (Num r)
  = if Qlt_bool (inject_Z (Qfloor (50 + (b + - r) * 2))) 99
    then of_Z (Qfloor (50 + (b + - r) * 2))
    else Num 99.
Proof. reflexivity. Qed.

Lemma confidence_bounds (best runnerUp : number) :
  not_negative best -> not_negative runnerUp ->
  certain best runnerUp = true ->
  num_le (Num 50) (confidenceOf best runnerUp) = true
  /\ num_le (confidenceOf best runnerUp) (Num 99) = true.
Proof.
  intros Hb Hr Hgate.
  destruct runnerUp as [r| | |]; simpl in Hr; try contradiction;
    [|destruct best; simpl in Hgate; discriminate ..].
  destruct best as [b| | |]; simpl in Hb; try contradiction; try discriminate.
  - apply Qlt_bool_iff in Hgate.
    rewrite confidence_finite.
    set (z := Qfloor (50 + (b + - r) * 2)).
    assert (Hz : (50 <= z)%Z).
    { change 50%Z with (Qfloor (inject_Z 50)). apply Qfloor_resp_le.
      change (inject_Z 50) with 50.
      rewrite <- (Qplus_0_r 50) at 1. apply Qplus_le_r.
      apply Qmult_le_0_compat; [|discriminate].
      rewrite <- (Qplus_opp_r r). apply Qplus_le_l.
      apply Qlt_le_weak. eapply Qle_lt_trans; [|exact Hgate].
      apply Qle_trans with (1 * r); [rewrite Qmult_1_l; apply Qle_refl|].
      rewrite (Qmult_comm r). apply Qmult_le_compat_r; [discriminate | exact Hr]. }
    destruct (Qlt_bool (inject_Z z) 99) eqn:E.
    + unfold of_Z, num_le. split; apply Qle_bool_iff.
      * change 50 with (inject_Z 50). rewrite <- Zle_Qle. exact Hz.
      * apply Qlt_le_weak, Qlt_bool_iff, E.
    + split; reflexivity.
  - split; reflexivity.
Qed.

(** C9.  Whenever the prediction is CONFIRMED and the three weights of
    the instrument are non-negative, the reported confidence lies in
    [50, 99]. *)
Theorem confidence_range (i : instrument) (d : nat) (confidence : number)
    (topModels : list model) (modelScores : Scores.t) :
  getAIProbabilityPrediction i
  = Some (CONFIRMED d confidence topModels modelScores) ->
  non_negative (weights i) ->
  num_le (Num 50) confidence = true /\ num_le confidence (Num 99) = true.
Proof.
  intros Hp Hw. unfold getAIProbabilityPrediction in Hp.
  destruct (length (priceHistory i) <? ANALYSIS_TICKS)%nat; [discriminate|].
  destruct (getVolatilityCheck (map lastDigitOf (priceHistory i)))
    as [[|]|]; try discriminate.
  fold (scoresOf (map lastDigitOf (priceHistory i))) in Hp.
  destruct (sortedScores _) as [|best [|runnerUp rest]] eqn:Hs; try discriminate.
  destruct (certain (score best) (score runnerUp)) eqn:Hgate; [|discriminate].
  injection Hp as _ <- _ _.
  apply confidence_bounds; [| |exact Hgate].
  - apply (aggregate_not_negative (map lastDigitOf (priceHistory i)) (weights i) _ Hw).
    apply sortedScores_In. rewrite Hs. left. reflexivity.
  - apply (aggregate_not_negative (map lastDigitOf (priceHistory i)) (weights i) _ Hw).
    apply sortedScores_In. rewrite Hs. right. left. reflexivity.
Qed.

Lemma confidence_range_witness :
  getAIProbabilityPrediction calm_instrument
  = Some (CONFIRMED 9 (Num 99) [RECENCY; LDF]
            (scoresOf (map lastDigitOf calm_history)))
  /\ non_negative (weights calm_instrument)
  /\ num_le (Num 50) (Num 99) = true /\ num_le (Num 99) (Num 99) = true.
Proof.
  assert (Hp : getAIProbabilityPrediction calm_instrument
               = Some (CONFIRMED 9 (Num 99) [RECENCY; LDF]
                         (scoresOf (map lastDigitOf calm_history))))
    by (vm_compute; reflexivity).
  assert (Hw : non_negative (weights calm_instrument))
    by (intros m; destruct m; reflexivity).
  split; [exact Hp|]. split; [exact Hw|].
  exact (confidence_range calm_instrument 9 (Num 99) _ _ Hp Hw).
Defined.

Lemma num_lt_le_trans (a b c : number) :
  num_lt a b = true -> num_le b c = true -> num_lt a c = true.
Proof.
  destruct a as [p| | |], b as [q| | |], c as [r| | |]; simpl;
    try discriminate; try reflexivity.
  intros H1 H2. apply Qlt_bool_iff. apply Qlt_bool_iff in H1.
  apply Qle_bool_iff in H2. exact (Qlt_le_trans _ _ _ H1 H2).
Qed.

(** C8.  Once the history and volatility gates have passed, the fused
    scores have a best and a runner-up, the decision is CONFIRMED
    exactly when [best.score > runnerUp.score * 1.5], and a CONFIRMED
    decision stays CONFIRMED by that test for every score at least as
    large as [best.score], the runner-up's score held fixed. *)
Theorem certainty_gate (i : instrument) :
  (ANALYSIS_TICKS <= length (priceHistory i))%nat ->
  getVolatilityCheck (map lastDigitOf (priceHistory i)) = Some true ->
  exists best runnerUp rest,
    sortedScores (fusedScores i) = best :: runnerUp :: rest
    /\ (is_confirmed (getAIProbabilityPrediction i) = true
        <-> num_gt (score best) (num_mul (score runnerUp) (Num 1.5)) = true)
    /\ forall larger : number,
         is_confirmed (getAIProbabilityPrediction i) = true ->
         num_ge larger (score best) = true ->
         num_gt larger (num_mul (score runnerUp) (Num 1.5)) = true.
Proof.
  intros Hlen Hvol.
  destruct (sortedScores_top_two (scoresOf (map lastDigitOf (priceHistory i)))
              (weights i)) as (best & runnerUp & rest & Hs).
  exists best, runnerUp, rest.
  assert (Hdecision : is_confirmed (getAIProbabilityPrediction i)
                      = certain (score best) (score runnerUp)).
  { unfold getAIProbabilityPrediction.
    replace (length (priceHistory i) <? ANALYSIS_TICKS)%nat with false
      by (symmetry; apply Nat.ltb_ge; exact Hlen).
    rewrite Hvol.
    fold (scoresOf (map lastDigitOf (priceHistory i))). rewrite Hs.
    destruct (certain (score best) (score runnerUp)); reflexivity. }
  split; [exact Hs|]. rewrite Hdecision. split; [reflexivity|].
  intros larger Hgate Hlarger.
  exact (num_lt_le_trans _ _ _ Hgate Hlarger).
Qed.

Lemma certainty_gate_witness :
  (ANALYSIS_TICKS <= length (priceHistory calm_instrument))%nat
  /\ getVolatilityCheck (map lastDigitOf (priceHistory calm_instrument)) = Some true
  /\ exists best runnerUp rest,
       sortedScores (fusedScores calm_instrument) = best :: runnerUp :: rest
       /\ (is_confirmed (getAIProbabilityPrediction calm_instrument) = true
           <-> num_gt (score best) (num_mul (score runnerUp) (Num 1.5)) = true)
       /\ forall larger : number,
            is_confirmed (getAIProbabilityPrediction calm_instrument) = true ->
            num_ge larger (score best) = true ->
            num_gt larger (num_mul (score runnerUp) (Num 1.5)) = true.
Proof.
  assert (Hlen : (ANALYSIS_TICKS <= length (priceHistory calm_instrument))%nat)
    by (vm_compute; lia).
  assert (Hvol : getVolatilityCheck (map lastDigitOf (priceHistory calm_instrument))
                 = Some true)
    by (vm_compute; reflexivity).
  split; [exact Hlen|]. split; [exact Hvol|].
  exact (certainty_gate calm_instrument Hlen Hvol).
Defined.

(** ** Initialization *)

Lemma initializeInstruments_object (f : weights_file) (disk : write_outcome)
    (entries : gmap string Weights.t) :
  loadWeights f = JSobject entries ->
  exists w,
    initializeInstruments (boot f disk) = Some w
    /\ (forall symbol,
          In symbol (map fst VOLATILITY_INDEXES) ->
          instruments w !! symbol
          = Some {| symbol := symbol;
                    priceHistory := [];
                    kalmanState := Kalman.mk None (Num 1);
                    weights := default INITIAL_WEIGHTS (entries !! symbol);
                    activeSignal := None;
                    lossStreak := 0;
                    cooldownUntil := None |})
    /\ (forall symbol,
          ~ In symbol (map fst VOLATILITY_INDEXES) ->
          instruments w !! symbol = None)
    /\ file w = f /\ sent w = [] /\ timers w = [].
Proof.
  intros Hload. unfold initializeInstruments, boot. cbn [file]. rewrite Hload.
  eexists. split; [reflexivity|]. simpl.
  split; [|split; [|repeat split]].
  - intros symbol [<-|[<-|[<-|[<-|[<-|[]]]]]];
      repeat (rewrite lookup_insert_ne by discriminate);
      apply lookup_insert_eq.
  - intros symbol Hnot.
    repeat (rewrite lookup_insert_ne by (intros E; apply Hnot; tauto)).
    apply lookup_empty.
Qed.

(** C10.  Initialization copies the weights from the persisted store
    verbatim: for every stored triple of an instrument, the engine
    starts and the instrument has exactly the stored weights, so when a
    stored value lies outside [0.5, 2.0] the weight bounds do not hold
    at startup. *)
Theorem initialize_copies_weights (content : gmap string Weights.t)
    (disk : write_outcome) (symbol : string) (stored : Weights.t) :
  In symbol (map fst VOLATILITY_INDEXES) ->
  content !! symbol = Some stored ->
  exists w,
    initializeInstruments (boot (Snapshot content) disk) = Some w
    /\ (exists i, instruments w !! symbol = Some i /\ weights i = stored)
    /\ (~ in_range stored -> ~ weights_ok symbol w).
Proof.
  intros Hin Hstored.
  destruct (initializeInstruments_object (Snapshot content) disk content eq_refl)
    as (w & Hstart & Hlisted & _).
  exists w. split; [exact Hstart|].
  assert (Hi : exists i, instruments w !! symbol = Some i /\ weights i = stored).
  { eexists. split.
    - apply Hlisted, Hin.
    - simpl. rewrite Hstored. reflexivity. }
  split; [exact Hi|].
  intros Hout Hok. destruct Hi as (i & Hi & Hw).
  apply Hout. rewrite <- Hw. exact (Hok _ Hi).
Qed.

Lemma initialize_copies_weights_witness :
  let stored := Weights.mk (Num 5) (Num 0) (Num (-3)) in
  let content : gmap string Weights.t := {[ "1HZ10V"%string := stored ]} in
  In "1HZ10V"%string (map fst VOLATILITY_INDEXES)
  /\ content !! "1HZ10V"%string = Some stored
  /\ exists w,
       initializeInstruments (boot (Snapshot content) Written) = Some w
       /\ (exists i, instruments w !! "1HZ10V"%string = Some i /\ weights i = stored)
       /\ ~ weights_ok "1HZ10V" w.
Proof.
  intros stored content.
  assert (Hin : In "1HZ10V"%string (map fst VOLATILITY_INDEXES))
    by (simpl; tauto).
  assert (Hstored : content !! "1HZ10V"%string = Some stored)
    by (apply lookup_singleton_eq).
  split; [exact Hin|]. split; [exact Hstored|].
  destruct (initialize_copies_weights content Written "1HZ10V"%string stored Hin Hstored)
    as (w & Hstart & Hcopy & Hbad).
  exists w. split; [exact Hstart|]. split; [exact Hcopy|].
  apply Hbad. intros Hrange. destruct (Hrange LDF) as [_ Hhi]. discriminate Hhi.
Defined.

(** * Further properties of the engine *)

(** ** Digit derivation *)

Lemma Qlt_bool_same (p p' q q' : Q) :
  p == p' -> q == q' -> Qlt_bool p q = Qlt_bool p' q'.
Proof.
  intros Hp Hq. destruct (Qlt_bool p' q') eqn:E.
  - apply Qlt_bool_iff. apply Qlt_bool_iff in E. rewrite Hp, Hq. exact E.
  - apply Qlt_bool_false. apply Qlt_bool_false in E. rewrite Hp, Hq. exact E.
Qed.

Lemma lastDigitOf_magnitude (p q : Q) :
  Qabs p == Qabs q -> lastDigitOf (Num p) = lastDigitOf (Num q).
Proof.
  intros H. unfold lastDigitOf.
  rewrite (Qlt_bool_same (Qabs p) (Qabs q) _ _ H (Qeq_refl _)).
  assert (H1 : Qfloor (Qabs p * 100 + (1 # 2)) = Qfloor (Qabs q * 100 + (1 # 2)))
    by (apply Qfloor_comp; rewrite H; reflexivity).
  assert (H2 : Qfloor (Qabs p) = Qfloor (Qabs q)) by (apply Qfloor_comp, H).
  cbv zeta. rewrite H1, H2. reflexivity.
Qed.

Lemma Qfloor_half (n : Z) : Qfloor (inject_Z n + (1 # 2)) = n.
Proof.
  unfold Qfloor, Qplus, inject_Z. simpl.
  symmetry. apply Z.div_unique with (r := 1%Z); lia.
Qed.

(** X3.  The digit of a price depends on its value only, not on its
    sign or on the fraction that denotes it; and a price of [n]
    hundredths, for a natural [n] below 10^23, has the last decimal
    digit of [n]. *)
Theorem lastDigitOf_hundredths (n : Z) (p : Q) :
  (0 <= n < 10 ^ 23)%Z ->
  Qabs p == inject_Z n / 100 ->
  lastDigitOf (Num p) = Some (Z.to_nat (n mod 10)).
Proof.
  intros Hn Hp.
  assert (Hnn : 0 <= inject_Z n / 100).
  { apply Qle_shift_div_l; [reflexivity|]. rewrite Qmult_0_l.
    change 0 with (inject_Z 0). rewrite <- Zle_Qle. lia. }
  rewrite (lastDigitOf_magnitude p (inject_Z n / 100))
    by (rewrite (Qabs_pos _ Hnn); exact Hp).
  unfold lastDigitOf.
  replace (Qlt_bool (Qabs (inject_Z n / 100)) (inject_Z (10 ^ 21))) with true.
  - f_equal. f_equal. f_equal.
    transitivity (Qfloor (inject_Z n + (1 # 2))); [|apply Qfloor_half].
    apply Qfloor_comp.
    pose proof (Qabs_pos _ Hnn) as Ha. rewrite Ha. field.
  - symmetry. apply Qlt_bool_iff.
    pose proof (Qabs_pos _ Hnn) as Ha. rewrite Ha.
    apply Qlt_shift_div_r; [reflexivity|].
    change (inject_Z (10 ^ 21) * 100) with (inject_Z (10 ^ 23)).
    rewrite <- Zlt_Qlt. lia.
Qed.

Lemma lastDigitOf_hundredths_witness :
  (0 <= 1234567 < 10 ^ 23)%Z
  /\ Qabs (- (12345.67)) == inject_Z 1234567 / 100
  /\ lastDigitOf (Num (- (12345.67))) = Some 7%nat.
Proof.
  assert (Hn : (0 <= 1234567 < 10 ^ 23)%Z) by (split; [lia | reflexivity]).
  assert (Hp : Qabs (- (12345.67)) == inject_Z 1234567 / 100) by reflexivity.
  split; [exact Hn|]. split; [exact Hp|].
  exact (lastDigitOf_hundredths 1234567 (- (12345.67)) Hn Hp).
Defined.

(** ** Recency of a digit that occurs *)

Lemma lastIndexOf_split (pre post : list digit) (d : nat) :
  ~ In (Some d) post ->
  lastIndexOf (pre ++ Some d :: post) d = Z.of_nat (length pre).
Proof.
  intros Hpost. induction pre as [|a pre IH].
  - simpl. rewrite (lastIndexOf_absent post d Hpost). simpl.
    rewrite Nat.eqb_refl. reflexivity.
  - rewrite <- app_comm_cons. simpl lastIndexOf. rewrite IH.
    replace (Z.of_nat (length pre) =? -1)%Z with false
      by (symmetry; apply Z.eqb_neq; lia).
    rewrite length_cons. lia.
Qed.

(** X4.  The Recency score of a digit that occurs is the number of
    digits after its last occurrence, however long the sequence is. *)
Theorem recency_distance (pre post : list digit) (d : nat) :
  (d < 10)%nat ->
  ~ In (Some d) post ->
  scoreAt (getRecencyScores (pre ++ Some d :: post)) d = of_nat (length post).
Proof.
  intros Hd Hpost. rewrite getRecencyScores_at by exact Hd.
  rewrite lastIndexOf_split by exact Hpost.
  replace (Z.of_nat (length pre) =? -1)%Z with false
    by (symmetry; apply Z.eqb_neq; lia).
  unfold of_nat. f_equal. rewrite length_app, length_cons. lia.
Qed.

Lemma recency_distance_witness :
  (7 < 10)%nat
  /\ ~ In (Some 7%nat) (map Some [1; 3]%nat)
  /\ scoreAt (getRecencyScores (map Some [3; 7; 1; 3]%nat)) 7 = of_nat 2.
Proof.
  assert (Hd : (7 < 10)%nat) by lia.
  assert (Hpost : ~ In (Some 7%nat) (map Some [1; 3]%nat))
    by (simpl; intros [H|[H|[]]]; discriminate H).
  split; [exact Hd|]. split; [exact Hpost|].
  exact (recency_distance [Some 3%nat] (map Some [1; 3]%nat) 7 Hd Hpost).
Defined.

(** ** Shape of the score vectors *)

Lemma occurrences_le_length (d : nat) (digits : list digit) :
  (occurrences d digits <= length digits)%nat.
Proof.
  induction digits as [|x digits IH]; simpl; [lia|].
  destruct (digit_eqb x (Some d)); lia.
Qed.

Lemma maxOccurrences_le_length (digits : list digit) :
  (maxOccurrences digits <= length digits)%nat.
Proof.
  destruct (maxOccurrences_attained digits) as (d & _ & <-).
  apply occurrences_le_length.
Qed.

(** X5.  Whatever the digit sequence, each of the three models returns
    ten scores, all of them finite and non-negative: an LDF score is at
    most 1.5 times the length of the sequence, and a PF score is at
    most 30. *)
Theorem score_vectors_shape (digits : list digit) (d : nat) :
  (d < 10)%nat ->
  length (getLDFScores digits) = 10%nat
  /\ length (getRecencyScores digits) = 10%nat
  /\ length (getPairingFrequencyScores digits) = 10%nat
  /\ (exists q, scoreAt (getLDFScores digits) d = Num q
        /\ 0 <= q <= inject_Z (Z.of_nat (length digits)) * 1.5)
  /\ (exists q, scoreAt (getRecencyScores digits) d = Num q /\ 0 <= q)
  /\ (exists q, scoreAt (getPairingFrequencyScores digits) d = Num q
        /\ 0 <= q <= 30).
Proof.
  intros Hd.
  split; [unfold getLDFScores; rewrite length_map; apply countDigits_length|].
  split; [unfold getRecencyScores; rewrite length_map, length_seq; reflexivity|].
  split.
  { unfold getPairingFrequencyScores.
    rewrite length_map, countTransitions_length. reflexivity. }
  split; [|split].
  - pose proof (ldf_nonneg digits d Hd) as Hnn.
    rewrite getLDFScores_at in * by exact Hd. simpl in *.
    eexists. split; [reflexivity|]. split; [exact Hnn|].
    apply Qmult_le_compat_r; [|discriminate].
    pose proof (maxOccurrences_le_length digits) as Hmax.
    assert (H1 : inject_Z (Z.of_nat (maxOccurrences digits))
                 <= inject_Z (Z.of_nat (length digits)))
      by (rewrite <- Zle_Qle; lia).
    assert (H2 : 0 <= inject_Z (Z.of_nat (occurrences d digits)))
      by (change 0 with (inject_Z 0); rewrite <- Zle_Qle; lia).
    lra.
  - pose proof (recency_nonneg digits d Hd) as Hnn.
    destruct (scoreAt (getRecencyScores digits) d) as [q| | |];
      try contradiction.
    exists q. split; [reflexivity | exact Hnn].
  - pose proof (pf_nonneg digits d Hd) as Hnn.
    rewrite getPairingFrequencyScores_at in * by exact Hd. simpl in Hnn.
    eexists. split; [reflexivity|]. split; [exact Hnn|].
    pose proof (transitionCounts_ge digits d Hd) as Hge.
    pose proof (orOne_positive (list_max (transitionCounts digits))) as Hone.
    assert (Hle : (follows (List.last digits None) d digits
                   <= orOne (list_max (transitionCounts digits)))%nat).
    { unfold orOne in *. destruct (list_max (transitionCounts digits)); simpl in *; lia. }
    apply Qle_trans with (1 * 30); [|discriminate].
    apply Qmult_le_compat_r; [|discriminate].
    apply Qle_shift_div_r; [apply inject_nat_positive, Hone|].
    rewrite Qmult_1_l, <- Zle_Qle. lia.
Qed.

Lemma score_vectors_shape_witness :
  let digits := map Some [3;3;3;7;3]%nat in
  (7 < 10)%nat
  /\ length (getPairingFrequencyScores digits) = 10%nat
  /\ exists q, scoreAt (getPairingFrequencyScores digits) 7 = Num q
        /\ 0 <= q <= 30.
Proof.
  intros digits. assert (Hd : (7 < 10)%nat) by lia.
  split; [exact Hd|].
  destruct (score_vectors_shape digits 7 Hd) as (_ & _ & Hlen & _ & _ & Hpf).
  split; [exact Hlen | exact Hpf].
Defined.

(** ** Volatility gate *)

Lemma slice_last_app {A : Type} (n : nat) (pre l : list A) :
  (n <= length l)%nat -> slice_last n (pre ++ l) = slice_last n l.
Proof.
  intros Hn. unfold slice_last. rewrite length_app, skipn_app.
  rewrite skipn_all2 by lia. simpl. f_equal. lia.
Qed.

Lemma slice_last_nonempty {A : Type} (n : nat) (l : list A) :
  (1 <= n)%nat -> l <> [] -> slice_last n l <> [].
Proof.
  intros Hn Hl H. apply (f_equal (@length A)) in H.
  unfold slice_last in H. rewrite length_skipn in H. simpl in H.
  destruct l; [contradiction | simpl in H; lia].
Qed.

Lemma fold_add_contains_NaN (l : list number) (a : number) :
  In NaN l -> fold_left num_add l a = NaN.
Proof.
  revert a. induction l as [|x l IH]; intros a; [contradiction|].
  intros [->|Hin]; simpl.
  - rewrite num_add_NaN_r. apply fold_add_NaN.
  - apply IH, Hin.
Qed.

(** X6.  The volatility gate looks at the last 30 digits only: digits
    in front of a sequence of at least 30 do not change its answer. *)
Theorem volatility_window (pre digits : list digit) :
  (30 <= length digits)%nat ->
  getVolatilityCheck (pre ++ digits) = getVolatilityCheck digits.
Proof.
  intros Hlen. unfold getVolatilityCheck.
  rewrite slice_last_app by exact Hlen. reflexivity.
Qed.

Lemma volatility_window_witness :
  let digits := repeat (Some 4%nat) 29 ++ [Some 9%nat] in
  (30 <= length digits)%nat
  /\ getVolatilityCheck (map Some [1; 2; 3]%nat ++ digits) = getVolatilityCheck digits.
Proof.
  intros digits.
  assert (Hlen : (30 <= length digits)%nat) by (vm_compute; lia).
  split; [exact Hlen|].
  exact (volatility_window (map Some [1; 2; 3]%nat) digits Hlen).
Defined.

(** X7.  The volatility gate throws on the empty sequence and on no
    other, and it is closed whenever one of the last 30 digits is
    NaN. *)
Theorem volatility_edge_cases (digits : list digit) :
  (getVolatilityCheck digits = None <-> digits = [])
  /\ (In None (slice_last 30 digits) -> getVolatilityCheck digits = Some false).
Proof.
  split.
  - split; [|intros ->; reflexivity].
    intros Hnone. destruct digits as [|d digits]; [reflexivity|]. exfalso.
    unfold getVolatilityCheck in Hnone.
    assert (Hne : slice_last 30 (d :: digits) <> [])
      by (apply slice_last_nonempty; [lia | discriminate]).
    destruct (slice_last 30 (d :: digits)) as [|x xs]; [contradiction|].
    simpl map in Hnone. discriminate Hnone.
  - intros Hin. unfold getVolatilityCheck.
    set (slice := map digit_value (slice_last 30 digits)).
    assert (HNaN : In NaN slice)
      by (apply in_map_iff; exists None; split; [reflexivity | exact Hin]).
    rewrite (fold_add_contains_NaN slice (Num 0) HNaN).
    change (num_div NaN (of_nat (length slice))) with NaN.
    rewrite (map_ext _ (fun _ => NaN))
      by (intros a; rewrite num_sub_NaN_r; reflexivity).
    destruct slice as [|a m]; [contradiction|]. simpl.
    rewrite fold_add_NaN. reflexivity.
Qed.

(** ** Effect of one weight update *)

Lemma get_set_other (m m' : model) (v : number) (w : Weights.t) :
  m <> m' -> Weights.get m' (Weights.set m v w) = Weights.get m' w.
Proof. destruct m, m'; simpl; congruence. Qed.

Lemma get_raise (m m' : model) (v : number) (w : Weights.t) :
  Weights.get m' (raise m v w)
  = if decide (m = m') then num_add (Weights.get m' w) v else Weights.get m' w.
Proof.
  unfold raise. destruct (decide (m = m')) as [->|Hne].
  - apply get_set_same.
  - apply get_set_other, Hne.
Qed.

Lemma get_lower (m m' : model) (v : number) (w : Weights.t) :
  Weights.get m' (lower m v w)
  = if decide (m = m') then num_sub (Weights.get m' w) v else Weights.get m' w.
Proof.
  unfold lower. destruct (decide (m = m')) as [->|Hne].
  - apply get_set_same.
  - apply get_set_other, Hne.
Qed.

Lemma clamp_in_range (v : number) : bounded v -> clamp v =n= v.
Proof.
  intros Hv. destruct (bounded_finite v Hv) as (q & -> & Hlo & Hhi).
  destruct Hv as [Hlo' Hhi']. apply Qle_bool_iff in Hlo', Hhi'.
  rewrite clamp_value.
  destruct (Qlt_bool q 2.0) eqn:E2.
  - destruct (Qlt_bool 0.5 q) eqn:E1; simpl; [reflexivity|].
    apply Qlt_bool_false in E1. apply Qle_antisym; assumption.
  - apply Qlt_bool_false in E2. simpl. apply Qle_antisym; assumption.
Qed.

Lemma rankModels_models (s : Scores.t) (d : digit) :
  exists a b c,
    rankModels s d = [a; b; c] /\ NoDup [item a; item b; item c].
Proof.
  destruct (rankModels_three s d) as (a & b & c & Hr).
  exists a, b, c. split; [exact Hr|].
  assert (Hperm : Permutation (map item (rankModels s d)) [LDF; RECENCY; PF]).
  { unfold rankModels. rewrite sort_perm. reflexivity. }
  rewrite Hr in Hperm. simpl in Hperm.
  apply NoDup_ListNoDup.
  eapply Permutation_NoDup; [symmetry; exact Hperm|].
  repeat constructor; simpl; intuition discriminate.
Qed.

(** X8.  One weight update on weights within the bounds.  The three
    models are ranked by their captured scores, at the realized digit on
    a WIN and at the predicted digit on a LOSS, and the ranking names
    each model once.  On a WIN the first model's weight is raised by
    [2 * adj] and the second one's by [adj], both capped by the clamp,
    and the third keeps its value; on a LOSS the first model's weight
    is lowered by [2 * adj], floored by the clamp, and the other two
    keep their values. *)
Theorem learn_effect (signal : Signal.t) (finalDigit : digit) (w w' : Weights.t) :
  in_range w ->
  learn signal finalDigit w = Some w' ->
  let predicted := Some (Signal.predictedDigit signal) in
  let won := digit_eqb finalDigit predicted in
  exists a b c,
    rankModels (Signal.modelScores signal) (if won then finalDigit else predicted)
    = [a; b; c]
    /\ NoDup [item a; item b; item c]
    /\ Weights.get (item c) w' =n= Weights.get (item c) w
    /\ if won
       then Weights.get (item a) w'
            = clamp (num_add (Weights.get (item a) w) (num_mul adj (Num 2)))
            /\ Weights.get (item b) w'
               = clamp (num_add (Weights.get (item b) w) adj)
       else Weights.get (item a) w'
            = clamp (num_sub (Weights.get (item a) w) (num_mul adj (Num 2)))
            /\ Weights.get (item b) w' =n= Weights.get (item b) w.
Proof.
  intros Hw Hlearn predicted won. unfold learn in Hlearn.
  fold predicted in Hlearn. fold won in Hlearn.
  destruct (rankModels_models (Signal.modelScores signal)
              (if won then finalDigit else predicted))
    as (a & b & c & Hr & Hnd).
  exists a, b, c. split; [exact Hr|]. split; [exact Hnd|].
  apply NoDup_ListNoDup in Hnd.
  assert (Hab : item a <> item b)
    by (inversion Hnd as [|? ? Hn _]; intros E; apply Hn; left; congruence).
  assert (Hac : item a <> item c)
    by (inversion Hnd as [|? ? Hn _]; intros E; apply Hn; right; left; congruence).
  assert (Hbc : item b <> item c).
  { inversion Hnd as [|? ? _ Hnd']. inversion Hnd' as [|? ? Hn _].
    intros E. apply Hn. left. congruence. }
  destruct won.
  - rewrite Hr in Hlearn. simpl in Hlearn. injection Hlearn as <-.
    rewrite !get_clampAll, !get_raise.
    repeat (destruct (decide _) as [?|?]; try congruence).
    split; [apply clamp_in_range, Hw|]. split; reflexivity.
  - rewrite Hr in Hlearn. simpl in Hlearn. injection Hlearn as <-.
    rewrite !get_clampAll, !get_lower.
    repeat (destruct (decide _) as [?|?]; try congruence).
    split; [apply clamp_in_range, Hw|].
    split; [reflexivity | apply clamp_in_range, Hw].
Qed.

Lemma learn_effect_witness :
  let captured :=
    Scores.mk (map of_Z [3; 3; 3; 12; 3; 3; 3; 0; 3; 3]%Z)
              (map of_Z [5; 4; 3; 100; 2; 1; 9; 0; 8; 7]%Z)
              (map of_Z [0; 0; 0; 0; 30; 0; 0; 15; 0; 0]%Z) in
  let signal := Signal.mk 3 captured 0 in
  let w' := Weights.mk (clamp (Num (1.0 + 0.05))) (clamp (Num (1.0 + 0.05 * 2)))
                       (clamp (Num 1.0)) in
  in_range INITIAL_WEIGHTS
  /\ learn signal (Some 3%nat) INITIAL_WEIGHTS = Some w'
  /\ exists a b c,
       rankModels captured (Some 3%nat) = [a; b; c]
       /\ NoDup [item a; item b; item c]
       /\ Weights.get (item c) w' =n= Weights.get (item c) INITIAL_WEIGHTS
       /\ Weights.get (item a) w'
          = clamp (num_add (Weights.get (item a) INITIAL_WEIGHTS) (num_mul adj (Num 2)))
       /\ Weights.get (item b) w'
          = clamp (num_add (Weights.get (item b) INITIAL_WEIGHTS) adj).
Proof.
  intros captured signal w'.
  assert (Hin : in_range INITIAL_WEIGHTS)
    by (intros m; destruct m; split; reflexivity).
  assert (Hl : learn signal (Some 3%nat) INITIAL_WEIGHTS = Some w') by reflexivity.
  split; [exact Hin|]. split; [exact Hl|].
  exact (learn_effect signal (Some 3%nat) INITIAL_WEIGHTS w' Hin Hl).
Defined.

Lemma clamp_not_NaN (v : number) : v <> NaN -> bounded (clamp v).
Proof.
  destruct v as [q| | |]; intros H.
  - apply clamp_bounded. reflexivity.
  - split; reflexivity.
  - split; reflexivity.
  - contradiction.
Qed.

Lemma add_finite_NaN (v : number) (q : Q) : num_add v (Num q) = NaN <-> v = NaN.
Proof. destruct v; simpl; split; congruence. Qed.

Lemma sub_finite_NaN (v : number) (q : Q) : num_sub v (Num q) = NaN <-> v = NaN.
Proof. destruct v; simpl; split; congruence. Qed.

Lemma raise_NaN (m m' : model) (q : Q) (w : Weights.t) :
  Weights.get m' (raise m (Num q) w) = NaN <-> Weights.get m' w = NaN.
Proof.
  rewrite get_raise. destruct (decide (m = m')); [apply add_finite_NaN | reflexivity].
Qed.

Lemma lower_NaN (m m' : model) (q : Q) (w : Weights.t) :
  Weights.get m' (lower m (Num q) w) = NaN <-> Weights.get m' w = NaN.
Proof.
  rewrite get_lower. destruct (decide (m = m')); [apply sub_finite_NaN | reflexivity].
Qed.

(** X9.  One weight update never throws and clamps all three weights,
    whatever they were: each weight that is a number ends within
    [0.5, 2.0], also when it was loaded out of range or is infinite,
    and a weight that is NaN stays NaN. *)
Theorem learn_repairs (signal : Signal.t) (finalDigit : digit) (w : Weights.t) :
  exists w',
    learn signal finalDigit w = Some w'
    /\ forall m : model,
         (Weights.get m w <> NaN -> bounded (Weights.get m w'))
         /\ (Weights.get m w = NaN -> Weights.get m w' = NaN).
Proof.
  destruct (learn_total signal finalDigit w) as [w' Hl].
  exists w'. split; [exact Hl|]. intros m.
  assert (Hadj : exists a, Some w' = option_map clampAll (Some a)
                   /\ (Weights.get m a = NaN <-> Weights.get m w = NaN)).
  { unfold learn in Hl. rewrite <- Hl.
    destruct (digit_eqb finalDigit (Some (Signal.predictedDigit signal))).
    - destruct (rankModels _ finalDigit) as [|first [|second rest]];
        try discriminate Hl.
      eexists. split; [reflexivity|].
      change adj with (Num 0.05).
      change (num_mul (Num 0.05) (Num 2)) with (Num (0.05 * 2)).
      rewrite !raise_NaN. reflexivity.
    - destruct (rankModels _ (Some _)) as [|first rest]; try discriminate Hl.
      eexists. split; [reflexivity|].
      change (num_mul adj (Num 2)) with (Num (0.05 * 2)).
      rewrite lower_NaN. reflexivity. }
  destruct Hadj as (a & Hw' & HNaN). simpl in Hw'. injection Hw' as ->.
  rewrite get_clampAll. split.
  - intros Hv. apply clamp_not_NaN. rewrite HNaN. exact Hv.
  - intros Hv. apply HNaN in Hv. rewrite Hv. reflexivity.
Qed.

(** ** Sorting finite scores *)

Lemma outranks_trans {A : Type} (a b c : scored A) :
  outranks a b -> outranks b c -> outranks a c.
Proof.
  intros (p & q & Hp & Hq & Hqp) (q' & r & Hq' & Hr & Hrq).
  rewrite Hq in Hq'. injection Hq' as <-.
  exists p, r. repeat split; try assumption. lra.
Qed.

Lemma descending_finite {A : Type} (a b : scored A) :
  finite_score a -> finite_score b ->
  if num_gt (descending b a) (Num 0)
  then outranks a b /\ ~ outranks b a
  else outranks b a.
Proof.
  unfold finite_score, descending, outranks.
  destruct (score a) as [p| | |], (score b) as [q| | |]; try discriminate.
  intros _ _. simpl. unfold num_gt. simpl.
  destruct (Qlt_bool 0 (p + - q)) eqn:E.
  - apply Qlt_bool_iff in E. split.
    + exists p, q. repeat split. lra.
    + intros (q' & p' & [= <-] & [= <-] & H). lra.
  - apply Qlt_bool_false in E. exists q, p. repeat split. lra.
Qed.

Lemma insert_keeps_sorted {A : Type} (a : scored A) (l : list (scored A)) :
  finite_score a -> Forall finite_score l ->
  StronglySorted outranks l ->
  StronglySorted outranks (insertSorted descending a l).
Proof.
  intros Ha Hl Hs. induction l as [|b l IH]; cbn [insertSorted].
  - repeat constructor.
  - apply Forall_cons_1 in Hl. destruct Hl as [Hb Hl].
    apply StronglySorted_inv in Hs. destruct Hs as [Hs Hbl].
    pose proof (descending_finite a b Ha Hb) as Hcmp.
    destruct (num_gt (descending b a) (Num 0)).
    + destruct Hcmp as [Hab _]. constructor.
      * constructor; assumption.
      * constructor; [exact Hab|].
        eapply Forall_impl; [exact Hbl|].
        intros c Hbc. exact (outranks_trans a b c Hab Hbc).
    + constructor; [apply IH; assumption|].
      apply Forall_forall. intros c Hc.
      apply list_elem_of_In in Hc.
      apply (Permutation_in _ (insertSorted_perm descending a l)) in Hc.
      destruct Hc as [<-|Hc]; [exact Hcmp|].
      rewrite Forall_forall in Hbl. apply Hbl, list_elem_of_In, Hc.
Qed.

Lemma sort_sorted {A : Type} (l : list (scored A)) :
  Forall finite_score l -> StronglySorted outranks (sort descending l).
Proof.
  intros Hl. unfold sort.
  assert (H : forall acc, Forall finite_score acc -> StronglySorted outranks acc ->
            Forall finite_score l ->
            StronglySorted outranks
              (fold_left (fun sorted a => insertSorted descending a sorted) l acc)).
  { clear Hl. induction l as [|a l IH]; intros acc Hacc Hs Hl; simpl; [exact Hs|].
    apply Forall_cons_1 in Hl. destruct Hl as [Ha Hl].
    apply IH; [|apply insert_keeps_sorted; assumption | exact Hl].
    apply Forall_forall. intros c Hc. apply list_elem_of_In in Hc.
    apply (Permutation_in _ (insertSorted_perm descending a acc)) in Hc.
    destruct Hc as [<-|Hc]; [exact Ha|].
    rewrite Forall_forall in Hacc. apply Hacc, list_elem_of_In, Hc. }
  apply H; [constructor | constructor | exact Hl].
Qed.

(** ** The confirmed digit *)

Lemma entries_In (s : Scores.t) (w : Weights.t) (x : scored nat) :
  In x (entriesOf (aggregate s w)) ->
  (item x < 10)%nat /\ score x = scoreAt (aggregate s w) (item x).
Proof.
  unfold entriesOf, aggregate. cbn [seq map length combine].
  intros H. repeat (destruct H as [<-|H]; [split; [simpl; lia | reflexivity]|]).
  contradiction.
Qed.

Lemma entries_has (s : Scores.t) (w : Weights.t) (k : nat) :
  (k < 10)%nat ->
  In (mkScored (scoreAt (aggregate s w) k) k) (entriesOf (aggregate s w)).
Proof.
  intros Hk. unfold entriesOf, aggregate. cbn [seq map length combine].
  do 10 (destruct k as [|k]; [simpl; tauto|]). lia.
Qed.

Lemma fused_finite (digits : list digit) (w : Weights.t) (k : nat) :
  in_range w -> (k < 10)%nat ->
  exists q, scoreAt (aggregate (scoresOf digits) w) k = Num q /\ 0 <= q.
Proof.
  intros Hw Hk.
  assert (Hat : scoreAt (aggregate (scoresOf digits) w) k
    = num_add (num_add (num_add (Num 0)
        (num_mul (scoreAt (getLDFScores digits) k) (Weights.ldf w)))
        (num_mul (scoreAt (getRecencyScores digits) k) (Weights.recency w)))
        (num_mul (scoreAt (getPairingFrequencyScores digits) k) (Weights.pf w))).
  { unfold aggregate. cbn [seq map].
    do 10 (destruct k as [|k]; [reflexivity|]). lia. }
  rewrite Hat.
  pose proof (ldf_nonneg digits k Hk) as H1.
  pose proof (recency_nonneg digits k Hk) as H2.
  pose proof (pf_nonneg digits k Hk) as H3.
  destruct (scoreAt (getLDFScores digits) k) as [a| | |]; try contradiction.
  destruct (scoreAt (getRecencyScores digits) k) as [b| | |]; try contradiction.
  destruct (scoreAt (getPairingFrequencyScores digits) k) as [c| | |]; try contradiction.
  destruct (bounded_finite _ (Hw LDF)) as (x & Hx & Hx1 & _).
  destruct (bounded_finite _ (Hw RECENCY)) as (y & Hy & Hy1 & _).
  destruct (bounded_finite _ (Hw PF)) as (z & Hz & Hz1 & _).
  simpl in Hx, Hy, Hz, H1, H2, H3. rewrite Hx, Hy, Hz. simpl.
  eexists. split; [reflexivity|].
  assert (0 <= a * x) by (apply Qmult_le_0_compat; lra).
  assert (0 <= b * y) by (apply Qmult_le_0_compat; lra).
  assert (0 <= c * z) by (apply Qmult_le_0_compat; lra).
  lra.
Qed.

Lemma sortedScores_sorted (digits : list digit) (w : Weights.t) :
  in_range w ->
  StronglySorted outranks (sortedScores (aggregate (scoresOf digits) w)).
Proof.
  intros Hw. apply (sort_sorted (entriesOf (aggregate (scoresOf digits) w))).
  apply Forall_forall. intros x Hx. apply list_elem_of_In in Hx.
  destruct (entries_In _ _ x Hx) as [Hk Hscore].
  destruct (fused_finite digits w (item x) Hw Hk) as (q & Hq & _).
  unfold finite_score. rewrite Hscore, Hq. reflexivity.
Qed.

(** X10.  When the weights are within the bounds, a CONFIRMED prediction
    names the digit with the highest fused score, strictly above the
    score of every other digit, and the score vectors it captures are
    those of the current history. *)
Theorem confirmed_is_best (i : instrument) (d : nat) (confidence : number)
    (topModels : list model) (modelScores : Scores.t) :
  in_range (weights i) ->
  getAIProbabilityPrediction i
  = Some (CONFIRMED d confidence topModels modelScores) ->
  (d < 10)%nat
  /\ modelScores = scoresOf (map lastDigitOf (priceHistory i))
  /\ forall k, (k < 10)%nat -> k <> d ->
       num_lt (scoreAt (fusedScores i) k) (scoreAt (fusedScores i) d) = true.
Proof.
  intros Hw Hp. unfold getAIProbabilityPrediction in Hp.
  destruct (length (priceHistory i) <? ANALYSIS_TICKS)%nat; [discriminate|].
  destruct (getVolatilityCheck (map lastDigitOf (priceHistory i)))
    as [[|]|]; try discriminate.
  fold (scoresOf (map lastDigitOf (priceHistory i))) in Hp.
  set (digits := map lastDigitOf (priceHistory i)) in *.
  pose proof (sortedScores_sorted digits (weights i) Hw) as Hsorted.
  assert (Hperm : Permutation (sortedScores (aggregate (scoresOf digits) (weights i)))
                              (entriesOf (aggregate (scoresOf digits) (weights i))))
    by apply sort_perm.
  destruct (sortedScores _) as [|best [|runnerUp rest]] eqn:Hs; try discriminate.
  destruct (certain (score best) (score runnerUp)) eqn:Hgate; [|discriminate].
  injection Hp as <- _ _ <-.
  destruct (entries_In _ _ best (Permutation_in _ Hperm (or_introl eq_refl)))
    as [Hd Hbest].
  split; [exact Hd|]. split; [reflexivity|].
  intros k Hk Hne. unfold fusedScores. fold digits. rewrite <- Hbest.
  apply StronglySorted_inv in Hsorted. destruct Hsorted as [Hsorted Hb].
  apply StronglySorted_inv in Hsorted. destruct Hsorted as [_ Hr].
  apply Forall_cons_1 in Hb. destruct Hb as [(b & r & Hsb & Hsr & Hrb) _].
  destruct (fused_finite digits (weights i) (item runnerUp) Hw) as (r' & Hr' & Hr0).
  { apply (entries_In (scoresOf digits) (weights i) runnerUp), (Permutation_in _ Hperm).
    right. left. reflexivity. }
  destruct (entries_In (scoresOf digits) (weights i) runnerUp) as [_ Hrun];
    [apply (Permutation_in _ Hperm); right; left; reflexivity|].
  rewrite <- Hrun, Hsr in Hr'. injection Hr' as <-.
  rewrite Hsb, Hsr in Hgate. unfold certain, num_gt in Hgate. simpl in Hgate.
  apply Qlt_bool_iff in Hgate.
  assert (Hin : In (mkScored (scoreAt (aggregate (scoresOf digits) (weights i)) k) k)
                   (runnerUp :: rest)).
  { pose proof (entries_has (scoresOf digits) (weights i) k Hk) as Hin.
    apply (Permutation_in _ (Permutation_sym Hperm)) in Hin.
    destruct Hin as [Heq|Hin]; [|exact Hin].
    exfalso. apply Hne. rewrite Heq. reflexivity. }
  assert (Hle : exists q, scoreAt (aggregate (scoresOf digits) (weights i)) k = Num q
                          /\ q <= r).
  { destruct Hin as [Heq|Hin].
    - exists r. rewrite <- Hsr, Heq. split; [reflexivity | lra].
    - rewrite Forall_forall in Hr.
      destruct (Hr _ (proj2 (list_elem_of_In _ _) Hin)) as (r2 & q & Hr2 & Hq & Hqr).
      rewrite Hsr in Hr2. injection Hr2 as <-.
      exists q. split; [exact Hq | exact Hqr]. }
  destruct Hle as (q & -> & Hqr). rewrite Hsb. simpl.
  apply Qlt_bool_iff. lra.
Qed.

Lemma confirmed_is_best_witness :
  in_range (weights calm_instrument)
  /\ getAIProbabilityPrediction calm_instrument
     = Some (CONFIRMED 9 (Num 99) [RECENCY; LDF]
               (scoresOf (map lastDigitOf calm_history)))
  /\ forall k, (k < 10)%nat -> k <> 9%nat ->
       num_lt (scoreAt (fusedScores calm_instrument) k)
              (scoreAt (fusedScores calm_instrument) 9) = true.
Proof.
  assert (Hw : in_range (weights calm_instrument))
    by (intros m; destruct m; split; reflexivity).
  assert (Hp : getAIProbabilityPrediction calm_instrument
               = Some (CONFIRMED 9 (Num 99) [RECENCY; LDF]
                         (scoresOf (map lastDigitOf calm_history))))
    by (vm_compute; reflexivity).
  split; [exact Hw|]. split; [exact Hp|].
  exact (proj2 (proj2 (confirmed_is_best calm_instrument 9 (Num 99) _ _ Hw Hp))).
Defined.

(** ** The reported models *)

(** X11.  For the score vectors of a digit sequence and a digit index,
    [topModels] names two different models, and they are the two with
    the highest raw scores at that digit: the first scores at least as
    much as the second, and the second at least as much as the model
    left out. *)
Theorem topModels_are_top (digits : list digit) (index : nat) :
  (index < 10)%nat ->
  let raw m := scoreAt (Scores.get m (scoresOf digits)) index in
  exists first second third,
    topModelsAt (scoresOf digits) index = [first; second]
    /\ NoDup [first; second; third]
    /\ num_ge (raw first) (raw second) = true
    /\ num_ge (raw second) (raw third) = true.
Proof.
  intros Hi raw.
  set (l := [ mkScored (raw LDF) LDF; mkScored (raw RECENCY) RECENCY;
              mkScored (raw PF) PF ]).
  assert (Hraw : forall x, In x l -> score x = raw (item x))
    by (intros x [<-|[<-|[<-|[]]]]; reflexivity).
  assert (Hfin : Forall finite_score l).
  { apply Forall_forall. intros x Hx. apply list_elem_of_In in Hx.
    unfold finite_score. rewrite (Hraw x Hx). subst raw. cbv beta.
    pose proof (ldf_nonneg digits index Hi).
    pose proof (recency_nonneg digits index Hi).
    pose proof (pf_nonneg digits index Hi).
    destruct (item x); simpl;
      match goal with |- is_finite ?v = true => destruct v; (reflexivity || contradiction) end. }
  pose proof (sort_sorted l Hfin) as Hsorted.
  pose proof (sort_perm descending l) as Hperm.
  pose proof (sort_length descending l) as Hlen.
  assert (Htop : topModelsAt (scoresOf digits) index
                 = map item (firstn 2 (sort descending l))) by reflexivity.
  destruct (sort descending l) as [|a [|b [|c [|? ?]]]]; try discriminate Hlen.
  exists (item a), (item b), (item c).
  split; [rewrite Htop; reflexivity|].
  split.
  { apply NoDup_ListNoDup.
    apply (Permutation_NoDup (l := map item l)).
    - symmetry. exact (Permutation_map item Hperm).
    - repeat constructor; simpl; intuition discriminate. }
  apply StronglySorted_inv in Hsorted. destruct Hsorted as [Hsorted Ha].
  apply StronglySorted_inv in Hsorted. destruct Hsorted as [_ Hb].
  apply Forall_cons_1 in Ha. destruct Ha as [(p & q & Hp & Hq & Hqp) _].
  apply Forall_cons_1 in Hb. destruct Hb as [(q' & r & Hq' & Hr & Hrq) _].
  rewrite <- !Hraw
    by (apply (Permutation_in _ Hperm); simpl; tauto).
  unfold num_ge. rewrite Hp, Hq, Hr. rewrite Hq in Hq'. injection Hq' as <-.
  simpl. split; apply Qle_bool_iff; assumption.
Qed.

Lemma topModels_are_top_witness :
  let digits := map lastDigitOf calm_history in
  (9 < 10)%nat
  /\ exists first second third,
       topModelsAt (scoresOf digits) 9 = [first; second]
       /\ NoDup [first; second; third]
       /\ num_ge (scoreAt (Scores.get first (scoresOf digits)) 9)
                 (scoreAt (Scores.get second (scoresOf digits)) 9) = true
       /\ num_ge (scoreAt (Scores.get second (scoresOf digits)) 9)
                 (scoreAt (Scores.get third (scoresOf digits)) 9) = true.
Proof.
  intros digits. assert (Hi : (9 < 10)%nat) by lia.
  split; [exact Hi|]. exact (topModels_are_top digits 9 Hi).
Defined.

(** ** The prediction never throws *)

Lemma getVolatilityCheck_total (digits : list digit) :
  digits <> [] -> exists stable, getVolatilityCheck digits = Some stable.
Proof.
  intros Hne. unfold getVolatilityCheck.
  assert (Hs : slice_last 30 digits <> []).
  { intros H. apply (f_equal (@length digit)) in H.
    unfold slice_last in H. rewrite length_skipn in H. simpl in H.
    destruct digits; [contradiction | simpl in H; lia]. }
  destruct (slice_last 30 digits) as [|d ds]; [contradiction|].
  simpl map. eexists. reflexivity.
Qed.

Lemma prediction_total (i : instrument) :
  exists p, getAIProbabilityPrediction i = Some p.
Proof.
  unfold getAIProbabilityPrediction.
  destruct (length (priceHistory i) <? ANALYSIS_TICKS)%nat eqn:E;
    [eexists; reflexivity|].
  apply Nat.ltb_ge in E.
  destruct (getVolatilityCheck_total (map lastDigitOf (priceHistory i)))
    as [stable ->].
  { destruct (priceHistory i); [simpl in E; unfold ANALYSIS_TICKS in E; lia | discriminate]. }
  destruct stable; [|eexists; reflexivity].
  fold (scoresOf (map lastDigitOf (priceHistory i))).
  destruct (sortedScores_top_two (scoresOf (map lastDigitOf (priceHistory i)))
              (weights i)) as (best & runnerUp & rest & ->).
  destruct (certain (score best) (score runnerUp)); eexists; reflexivity.
Qed.

(** ** What a tick changes *)

Lemma with_signal_same (i : instrument) : with_signal (activeSignal i) i = i.
Proof. destruct i. reflexivity. Qed.

(** The three outcomes of [runAnalysis] on a registered instrument. *)
Lemma runAnalysis_outcome (symbol : string) (now : Z) (w : world) (i : instrument) :
  instruments w !! symbol = Some i ->
  (activeSignal i <> None /\ runAnalysis symbol now w = Some w)
  \/ (activeSignal i = None
      /\ exists reason,
           runAnalysis symbol now w
           = Some (broadcast (StatusMsg symbol "ANALYZING" reason) w))
  \/ (activeSignal i = None
      /\ exists d c t s,
           getAIProbabilityPrediction i = Some (CONFIRMED d c t s)
           /\ runAnalysis symbol now w
              = Some (setTimeout symbol
                        (broadcast (SignalMsg symbol d c t)
                           (with_instrument symbol
                              (with_signal (Some (Signal.mk d s now)) i) w)))).
Proof.
  intros Hi. unfold runAnalysis. rewrite Hi.
  destruct (activeSignal i) as [sig|]; [left; split; [discriminate | reflexivity]|].
  right. destruct (prediction_total i) as [[reason|d c t s] Hp]; rewrite Hp.
  - left. split; [reflexivity|]. exists reason. reflexivity.
  - right. split; [reflexivity|]. exists d, c, t, s. split; reflexivity.
Qed.

Lemma handleTick_unfold (tick : Tick.t) (now : Z) (w : world) (i : instrument) :
  instruments w !! Tick.symbol tick = Some i ->
  handleTick tick now w
  = runAnalysis (Tick.symbol tick) now
      (broadcast (TickMsg (Tick.symbol tick) (lastDigitOf (Tick.quote tick)))
         (with_instrument (Tick.symbol tick) (ticked tick i) w)).
Proof.
  intros Hi. unfold handleTick, ticked. rewrite Hi.
  destruct (kalmanUpdate (kalmanState i) (Tick.quote tick)). reflexivity.
Qed.

Lemma ticked_history (tick : Tick.t) (i : instrument) :
  (length (priceHistory i) <= STABILITY_ANALYSIS_TICKS + 5)%nat ->
  priceHistory (ticked tick i)
  = (if (length (priceHistory i) =? STABILITY_ANALYSIS_TICKS + 5)%nat
     then tail (priceHistory i) else priceHistory i)
    ++ [snd (kalmanUpdate (kalmanState i) (Tick.quote tick))].
Proof.
  intros Hlen. unfold ticked.
  destruct (kalmanUpdate (kalmanState i) (Tick.quote tick)) as [st v].
  cbn [priceHistory with_tick snd].
  rewrite length_app. simpl length.
  destruct (length (priceHistory i) =? STABILITY_ANALYSIS_TICKS + 5)%nat eqn:E.
  - apply Nat.eqb_eq in E.
    replace (STABILITY_ANALYSIS_TICKS + 5 <? length (priceHistory i) + 1)%nat
      with true by (symmetry; apply Nat.ltb_lt; lia).
    destruct (priceHistory i); [simpl in E; discriminate E | reflexivity].
  - apply Nat.eqb_neq in E.
    replace (STABILITY_ANALYSIS_TICKS + 5 <? length (priceHistory i) + 1)%nat
      with false by (symmetry; apply Nat.ltb_ge; lia).
    reflexivity.
Qed.

Lemma ticked_fields (tick : Tick.t) (i : instrument) :
  weights (ticked tick i) = weights i
  /\ activeSignal (ticked tick i) = activeSignal i
  /\ kalmanState (ticked tick i) = fst (kalmanUpdate (kalmanState i) (Tick.quote tick))
  /\ priceHistory (ticked tick i) <> [].
Proof.
  unfold ticked.
  destruct (kalmanUpdate (kalmanState i) (Tick.quote tick)) as [st v].
  cbn [weights activeSignal kalmanState priceHistory with_tick fst].
  repeat split.
  destruct (pushed_history (priceHistory i) v) as [h ->].
  destruct h; discriminate.
Qed.

(** X12.  A tick for a registered instrument never throws.  It replaces
    the filter state by the smoother's, appends the smoothed price to
    the history, evicting the oldest price once the history holds 155,
    and leaves the weights of the instrument, every other instrument
    and the weights file as they were. *)
Theorem handleTick_effect (tick : Tick.t) (now : Z) (w : world) (i : instrument) :
  instruments w !! Tick.symbol tick = Some i ->
  (length (priceHistory i) <= STABILITY_ANALYSIS_TICKS + 5)%nat ->
  exists w' i',
    handleTick tick now w = Some w'
    /\ instruments w' !! Tick.symbol tick = Some i'
    /\ kalmanState i' = fst (kalmanUpdate (kalmanState i) (Tick.quote tick))
    /\ priceHistory i'
       = (if (length (priceHistory i) =? STABILITY_ANALYSIS_TICKS + 5)%nat
          then tail (priceHistory i) else priceHistory i)
         ++ [snd (kalmanUpdate (kalmanState i) (Tick.quote tick))]
    /\ (length (priceHistory i') <= STABILITY_ANALYSIS_TICKS + 5)%nat
    /\ weights i' = weights i
    /\ file w' = file w
    /\ forall other, other <> Tick.symbol tick ->
         instruments w' !! other = instruments w !! other.
Proof.
  intros Hi Hlen. rewrite (handleTick_unfold tick now w i Hi).
  set (w2 := broadcast _ _).
  assert (Hi2 : instruments w2 !! Tick.symbol tick = Some (ticked tick i))
    by (subst w2; cbn [instruments broadcast with_instrument]; apply lookup_insert_eq).
  destruct (ticked_fields tick i) as (Hw & Hs & Hk & _).
  pose proof (ticked_history tick i Hlen) as Hh.
  assert (Hlen' : (length (priceHistory (ticked tick i))
                   <= STABILITY_ANALYSIS_TICKS + 5)%nat).
  { rewrite Hh, length_app. cbn [length].
    destruct (length (priceHistory i) =? STABILITY_ANALYSIS_TICKS + 5)%nat eqn:E.
    - apply Nat.eqb_eq in E.
      destruct (priceHistory i); cbn [length tail] in *; lia.
    - apply Nat.eqb_neq in E. lia. }
  assert (Hother : forall other, other <> Tick.symbol tick ->
            instruments w2 !! other = instruments w !! other).
  { intros other Hne. subst w2. cbn [instruments broadcast with_instrument].
    apply lookup_insert_ne. congruence. }
  destruct (runAnalysis_outcome (Tick.symbol tick) now w2 (ticked tick i) Hi2)
    as [[_ ->]|[[_ [reason ->]]|[_ (d & c & t & s & _ & ->)]]].
  - exists w2, (ticked tick i). repeat split; assumption.
  - eexists. exists (ticked tick i). repeat split; assumption.
  - eexists. exists (with_signal (Some (Signal.mk d s now)) (ticked tick i)).
    split; [reflexivity|].
    cbn [instruments setTimeout broadcast with_instrument file].
    split; [apply lookup_insert_eq|].
    cbn [kalmanState priceHistory weights with_signal].
    repeat split; try assumption.
    intros other Hne. rewrite lookup_insert_ne by congruence.
    apply (Hother other Hne).
Qed.

Lemma handleTick_effect_witness :
  let w := started in
  let tick := Tick.mk "1HZ50V" (Num 812.34) in
  let i := mkInstrument "1HZ50V" [] (Kalman.mk None (Num 1)) INITIAL_WEIGHTS
                        None 0 None in
  instruments w !! Tick.symbol tick = Some i
  /\ (length (priceHistory i) <= STABILITY_ANALYSIS_TICKS + 5)%nat
  /\ exists w' i',
       handleTick tick 0 w = Some w'
       /\ instruments w' !! Tick.symbol tick = Some i'
       /\ kalmanState i' = fst (kalmanUpdate (kalmanState i) (Tick.quote tick))
       /\ priceHistory i'
          = (if (length (priceHistory i) =? STABILITY_ANALYSIS_TICKS + 5)%nat
             then tail (priceHistory i) else priceHistory i)
            ++ [snd (kalmanUpdate (kalmanState i) (Tick.quote tick))]
       /\ (length (priceHistory i') <= STABILITY_ANALYSIS_TICKS + 5)%nat
       /\ weights i' = weights i
       /\ file w' = file w
       /\ forall other, other <> Tick.symbol tick ->
            instruments w' !! other = instruments w !! other.
Proof.
  intros w tick i.
  assert (Hi : instruments w !! Tick.symbol tick = Some i)
    by (vm_compute; reflexivity).
  assert (Hlen : (length (priceHistory i) <= STABILITY_ANALYSIS_TICKS + 5)%nat)
    by (simpl; lia).
  split; [exact Hi|]. split; [exact Hlen|].
  exact (handleTick_effect tick 0 w i Hi Hlen).
Defined.

(** ** The signal life cycle *)

Lemma clearTimeout_count (symbol : string) (timers timers' : list string) :
  clearTimeout symbol timers = Some timers' ->
  count_occ string_dec timers symbol = S (count_occ string_dec timers' symbol)
  /\ forall other, other <> symbol ->
       count_occ string_dec timers' other = count_occ string_dec timers other.
Proof.
  revert timers'. induction timers as [|t timers IH]; intros timers'; simpl;
    [discriminate|].
  destruct (String.eqb t symbol) eqn:E.
  - apply String.eqb_eq in E. subst t. intros [= <-].
    destruct (string_dec symbol symbol); [|contradiction].
    split; [reflexivity|]. intros other Hne.
    destruct (string_dec symbol other); [congruence | reflexivity].
  - apply String.eqb_neq in E.
    destruct (clearTimeout symbol timers) as [rest|]; [|discriminate].
    simpl. intros [= <-]. destruct (IH rest eq_refl) as [Hc Ho].
    split.
    + simpl. destruct (string_dec t symbol); [contradiction | exact Hc].
    + intros other Hne. simpl.
      destruct (string_dec t other); rewrite (Ho other Hne); reflexivity.
Qed.

Lemma lifecycle_update (w w' : world) (symbol : string) (i' : instrument) :
  lifecycle_ok w ->
  instruments w' = <[symbol := i']> (instruments w) ->
  (forall other, other <> symbol -> pending other w' = pending other w) ->
  match activeSignal i' with
  | Some _ => pending symbol w' = 1%nat /\ priceHistory i' <> []
  | None => pending symbol w' = 0%nat
  end ->
  lifecycle_ok w'.
Proof.
  intros Hok Hins Hother Hsym s. rewrite Hins.
  destruct (decide (symbol = s)) as [<-|Hne].
  - rewrite lookup_insert_eq. exact Hsym.
  - rewrite lookup_insert_ne by exact Hne.
    rewrite (Hother s) by congruence. apply Hok.
Qed.

Lemma history_update (w w' : world) (symbol : string) (i' : instrument) :
  history_ok w ->
  instruments w' = <[symbol := i']> (instruments w) ->
  (length (priceHistory i') <= STABILITY_ANALYSIS_TICKS + 5)%nat ->
  history_ok w'.
Proof.
  intros Hok Hins Hlen s j. rewrite Hins.
  destruct (decide (symbol = s)) as [<-|Hne].
  - rewrite lookup_insert_eq. intros [= <-]. exact Hlen.
  - rewrite lookup_insert_ne by exact Hne. apply Hok.
Qed.

Lemma symbols_update (w w' : world) (symbol : string) (i i' : instrument) :
  instruments w !! symbol = Some i ->
  instruments w' = <[symbol := i']> (instruments w) ->
  same_symbols w w'.
Proof.
  intros Hi Hins s. rewrite Hins.
  destruct (decide (symbol = s)) as [<-|Hne].
  - rewrite lookup_insert_eq, Hi. split; intros _; eexists; reflexivity.
  - rewrite lookup_insert_ne by exact Hne. reflexivity.
Qed.

Lemma ticked_length (tick : Tick.t) (i : instrument) :
  (length (priceHistory i) <= STABILITY_ANALYSIS_TICKS + 5)%nat ->
  (length (priceHistory (ticked tick i)) <= STABILITY_ANALYSIS_TICKS + 5)%nat.
Proof.
  intros Hlen. rewrite (ticked_history tick i Hlen), length_app. cbn [length].
  destruct (length (priceHistory i) =? STABILITY_ANALYSIS_TICKS + 5)%nat eqn:E.
  - apply Nat.eqb_eq in E.
    destruct (priceHistory i); cbn [length tail] in *; lia.
  - apply Nat.eqb_neq in E. lia.
Qed.

Lemma handleTick_result (tick : Tick.t) (now : Z) (w : world) (i : instrument) :
  instruments w !! Tick.symbol tick = Some i ->
  exists w' signal,
    handleTick tick now w = Some w'
    /\ instruments w'
       = <[Tick.symbol tick := with_signal signal (ticked tick i)]> (instruments w)
    /\ ((signal = activeSignal i /\ timers w' = timers w)
        \/ (activeSignal i = None /\ signal <> None
            /\ timers w' = timers w ++ [Tick.symbol tick])).
Proof.
  intros Hi. rewrite (handleTick_unfold tick now w i Hi).
  set (w2 := broadcast _ _).
  assert (Hi2 : instruments w2 !! Tick.symbol tick = Some (ticked tick i))
    by (subst w2; cbn [instruments broadcast with_instrument]; apply lookup_insert_eq).
  destruct (ticked_fields tick i) as (_ & Hs & _ & _).
  destruct (runAnalysis_outcome (Tick.symbol tick) now w2 (ticked tick i) Hi2)
    as [[_ ->]|[[_ [reason ->]]|[Hnone (d & c & t & s & _ & ->)]]].
  - exists w2, (activeSignal i). split; [reflexivity|]. split.
    + rewrite <- Hs, with_signal_same. reflexivity.
    + left. split; reflexivity.
  - eexists. exists (activeSignal i). split; [reflexivity|]. split.
    + rewrite <- Hs, with_signal_same. reflexivity.
    + left. split; reflexivity.
  - eexists. exists (Some (Signal.mk d s now)). split; [reflexivity|]. split.
    + subst w2. cbn [instruments setTimeout broadcast with_instrument].
      apply insert_insert_eq.
    + right. rewrite <- Hs. split; [exact Hnone|]. split; [discriminate | reflexivity].
Qed.

Lemma saveWeights_timers (w : world) : timers (saveWeights w) = timers w.
Proof. unfold saveWeights. destruct (disk w); reflexivity. Qed.

Lemma backtestAndLearn_result (symbol : string) (w : world) (i : instrument)
    (signal : Signal.t) :
  instruments w !! symbol = Some i ->
  activeSignal i = Some signal ->
  priceHistory i <> [] ->
  exists weights',
    backtestAndLearn symbol w
    = Some (saveWeights (with_instrument symbol (with_weights weights' i) w)).
Proof.
  intros Hi Hs Hh. unfold backtestAndLearn. rewrite Hi, Hs.
  destruct (last (priceHistory i)) as [finalPrice|] eqn:Hlast.
  - destruct (learn_total signal (lastDigitOf finalPrice) (weights i)) as [w' ->].
    exists w'. reflexivity.
  - apply last_None in Hlast. contradiction.
Qed.

Lemma pending_append (symbol other : string) (w : world) (timers' : list string) :
  count_occ string_dec (timers' ++ [symbol]) other
  = (count_occ string_dec timers' other + if decide (symbol = other) then 1 else 0)%nat.
Proof.
  rewrite count_occ_app. simpl.
  destruct (string_dec symbol other), (decide (symbol = other)); congruence || lia.
Qed.

(** Every event the engine can meet is handled without a throw and
    keeps the life-cycle and history invariants. *)
Lemma step_safe (e : event) (w : world) :
  lifecycle_ok w -> history_ok w -> known w e ->
  exists w',
    step e w = Some w' /\ lifecycle_ok w' /\ history_ok w' /\ same_symbols w w'.
Proof.
  intros Hlife Hhist Hknown.
  destruct e as [tick now|symbol|symbol]; simpl.
  - destruct (instruments w !! Tick.symbol tick) as [i|] eqn:Hi.
    + destruct (handleTick_result tick now w i Hi)
        as (w' & signal & -> & Hins & Hcase).
      exists w'. split; [reflexivity|].
      destruct (ticked_fields tick i) as (_ & _ & _ & Hne).
      pose proof (Hlife (Tick.symbol tick)) as Hsym. rewrite Hi in Hsym.
      split; [|split].
      * apply (lifecycle_update w w' _ _ Hlife Hins).
        -- intros other Hother. unfold pending.
           destruct Hcase as [[_ ->]|(_ & _ & ->)]; [reflexivity|].
           rewrite (pending_append _ _ w).
           destruct (decide (Tick.symbol tick = other)); [congruence | lia].
        -- cbn [activeSignal priceHistory with_signal]. unfold pending.
           destruct Hcase as [[-> ->]|(Hnone & Hsome & ->)].
           ++ destruct (activeSignal i); [split; [apply Hsym | exact Hne] | exact Hsym].
           ++ destruct signal; [|contradiction].
              rewrite Hnone in Hsym. unfold pending in Hsym.
              rewrite (pending_append _ _ w), Hsym.
              destruct (decide (Tick.symbol tick = Tick.symbol tick)); [|contradiction].
              split; [reflexivity | exact Hne].
      * apply (history_update w w' _ _ Hhist Hins).
        cbn [priceHistory with_signal]. apply ticked_length. exact (Hhist _ _ Hi).
      * exact (symbols_update w w' _ _ _ Hi Hins).
    + destruct Hknown as [[i Hsome]|Hown]; [congruence|].
      unfold handleTick. rewrite Hi, Hown. exists w.
      split; [reflexivity|]. split; [exact Hlife|]. split; [exact Hhist|].
      intros s. reflexivity.
  - destruct (clearTimeout symbol (timers w)) as [timers'|] eqn:Hclear.
    + destruct (clearTimeout_count _ _ _ Hclear) as [Hcount Hother].
      pose proof (Hlife symbol) as Hsym. unfold pending in Hsym.
      destruct (instruments w !! symbol) as [i|] eqn:Hi; [|lia].
      destruct (activeSignal i) as [signal|] eqn:Hs; [|lia].
      destruct Hsym as [Hone Hne].
      set (w0 := mkWorld (instruments w) (file w) (disk w) (sent w) timers').
      destruct (backtestAndLearn_result symbol w0 i signal Hi Hs Hne)
        as [weights' Hlearn].
      assert (Hi0 : instruments w0 !! symbol = Some i) by exact Hi.
      unfold evaluate. rewrite Hi0, Hs, Hlearn.
      rewrite saveWeights_instruments. cbn [instruments with_instrument].
      rewrite lookup_insert_eq.
      eexists. split; [reflexivity|].
      assert (Hins : instruments
                (with_instrument symbol
                   (with_signal None (with_weights weights' i))
                   (saveWeights (with_instrument symbol (with_weights weights' i) w0)))
              = <[symbol := with_signal None (with_weights weights' i)]> (instruments w)).
      { cbn [instruments with_instrument]. rewrite saveWeights_instruments.
        cbn [instruments with_instrument]. apply insert_insert_eq. }
      assert (Htimers : forall s, pending s
                (with_instrument symbol
                   (with_signal None (with_weights weights' i))
                   (saveWeights (with_instrument symbol (with_weights weights' i) w0)))
              = count_occ string_dec timers' s).
      { intros s. unfold pending. cbn [timers with_instrument].
        rewrite saveWeights_timers. reflexivity. }
      split; [|split].
      * apply (lifecycle_update w _ _ _ Hlife Hins).
        -- intros other Hne'. rewrite Htimers. unfold pending. apply Hother, Hne'.
        -- cbn [activeSignal with_signal]. rewrite Htimers. lia.
      * apply (history_update w _ _ _ Hhist Hins).
        cbn [priceHistory with_signal with_weights]. exact (Hhist _ _ Hi).
      * exact (symbols_update w _ _ _ _ Hi Hins).
    + exists w. split; [reflexivity|]. split; [exact Hlife|]. split; [exact Hhist|].
      intros s. reflexivity.
  - destruct Hknown as [i Hi].
    pose proof (Hlife symbol) as Hsym. rewrite Hi in Hsym.
    destruct (activeSignal i) as [signal|] eqn:Hs.
    + destruct Hsym as [Hone Hne].
      destruct (backtestAndLearn_result symbol w i signal Hi Hs Hne)
        as [weights' ->].
      eexists. split; [reflexivity|].
      assert (Hins : instruments
                (saveWeights (with_instrument symbol (with_weights weights' i) w))
              = <[symbol := with_weights weights' i]> (instruments w))
        by (rewrite saveWeights_instruments; reflexivity).
      split; [|split].
      * apply (lifecycle_update w _ _ _ Hlife Hins).
        -- intros other _. unfold pending. rewrite saveWeights_timers. reflexivity.
        -- cbn [activeSignal priceHistory with_weights]. rewrite Hs.
           unfold pending. rewrite saveWeights_timers. split; assumption.
      * apply (history_update w _ _ _ Hhist Hins).
        cbn [priceHistory with_weights]. exact (Hhist _ _ Hi).
      * exact (symbols_update w _ _ _ _ Hi Hins).
    + unfold backtestAndLearn. rewrite Hi, Hs. exists w.
      split; [reflexivity|]. split; [exact Hlife|]. split; [exact Hhist|].
      intros s. reflexivity.
Qed.

Lemma known_same_symbols (w w' : world) (e : event) :
  same_symbols w w' -> known w e -> known w' e.
Proof.
  intros H. destruct e as [tick now|symbol|symbol]; simpl.
  - intros [Hsome|Hown]; [left; apply H, Hsome | right; exact Hown].
  - tauto.
  - apply H.
Qed.

Lemma run_safe (events : list event) (w : world) :
  lifecycle_ok w -> history_ok w -> Forall (known w) events ->
  exists w',
    run events w = Some w' /\ lifecycle_ok w' /\ history_ok w' /\ same_symbols w w'.
Proof.
  revert w. induction events as [|e events IH]; intros w Hlife Hhist Hknown.
  - exists w. split; [reflexivity|]. split; [exact Hlife|]. split; [exact Hhist|].
    intros s. reflexivity.
  - apply Forall_cons_1 in Hknown. destruct Hknown as [He Hrest].
    destruct (step_safe e w Hlife Hhist He) as (w1 & Hstep & Hlife1 & Hhist1 & Hsame1).
    destruct (IH w1 Hlife1 Hhist1) as (w' & Hrun & Hlife' & Hhist' & Hsame').
    { eapply Forall_impl; [exact Hrest|].
      intros e'. apply known_same_symbols, Hsame1. }
    exists w'. simpl. rewrite Hstep. split; [exact Hrun|].
    split; [exact Hlife'|]. split; [exact Hhist'|].
    intros s. rewrite (Hsame' s). apply Hsame1.
Qed.

(** ** Starting the engine *)

Lemma initializeInstruments_null (f : weights_file) (disk : write_outcome) :
  loadWeights f = JSnull -> initializeInstruments (boot f disk) = None.
Proof.
  intros Hload. unfold initializeInstruments, boot. cbn [file]. rewrite Hload.
  reflexivity.
Qed.

Lemma loadWeights_object (f : weights_file) :
  f <> NullFile -> exists entries, loadWeights f = JSobject entries.
Proof.
  destruct f; intros Hf; [| |contradiction|]; eexists; reflexivity.
Qed.

Lemma configured_not_inherited (symbol : string) :
  In symbol (map fst VOLATILITY_INDEXES) -> inherited symbol = false.
Proof. intros [<-|[<-|[<-|[<-|[<-|[]]]]]]; reflexivity. Qed.

(** X14.  Starting the engine throws exactly when the weights file holds
    null.  Otherwise the registry holds the five configured symbols and
    no other; each instrument carries its own symbol, an empty history,
    an unset filter of covariance 1 and no signal; nothing is sent or
    scheduled and the file is left alone.  An instrument without a
    stored entry (no file, an unreadable file, a snapshot that lacks
    the symbol) starts with the weights 1.0 each, within the bounds. *)
Theorem initialize_registry (f : weights_file) (disk : write_outcome) :
  match initializeInstruments (boot f disk) with
  | None => f = NullFile
  | Some w =>
      f <> NullFile
      /\ (forall symbol,
            is_Some (instruments w !! symbol)
            <-> In symbol (map fst VOLATILITY_INDEXES))
      /\ (forall name i,
            instruments w !! name = Some i ->
            symbol i = name
            /\ priceHistory i = []
            /\ kalmanState i = Kalman.mk None (Num 1)
            /\ activeSignal i = None
            /\ (match f with
                | Snapshot content => content !! name = None
                | _ => True
                end ->
                weights i = INITIAL_WEIGHTS /\ in_range (weights i)))
      /\ file w = f /\ sent w = [] /\ timers w = []
  end.
Proof.
  destruct (loadWeights f) as [|entries] eqn:Hload.
  { rewrite (initializeInstruments_null f disk Hload).
    destruct f; (reflexivity || discriminate Hload). }
  assert (Hf : f <> NullFile) by (intros ->; discriminate Hload).
  destruct (initializeInstruments_object f disk entries Hload)
    as (w & -> & Hlisted & Hunlisted & Hrest).
  split; [exact Hf|]. split; [|split; [|exact Hrest]].
  - intros s. destruct (symbol_listed s) as [Hin|Hout].
    + rewrite (Hlisted s Hin). split; [intros _; exact Hin | intros _; eexists; reflexivity].
    + rewrite (Hunlisted s Hout). split; [intros [i Hi]; discriminate | contradiction].
  - intros name i Hi. destruct (symbol_listed name) as [Hin|Hout].
    + rewrite (Hlisted name Hin) in Hi. injection Hi as <-.
      cbn [symbol priceHistory kalmanState activeSignal weights].
      repeat (split; [reflexivity|]).
      intros Hentry.
      assert (Hnone : entries !! name = None).
      { destruct f as [| | |content]; simpl in Hload.
        - injection Hload as <-. apply lookup_empty.
        - injection Hload as <-. apply lookup_empty.
        - discriminate Hload.
        - injection Hload as <-. exact Hentry. }
      rewrite Hnone. split; [reflexivity|].
      intros m. destruct m; split; reflexivity.
    + rewrite (Hunlisted name Hout) in Hi. discriminate.
Qed.

Lemma initial_lifecycle (f : weights_file) (disk : write_outcome) (w : world) :
  initializeInstruments (boot f disk) = Some w ->
  lifecycle_ok w /\ history_ok w
  /\ forall symbol,
       is_Some (instruments w !! symbol) <-> In symbol (map fst VOLATILITY_INDEXES).
Proof.
  intros Hstart.
  destruct (loadWeights f) as [|entries] eqn:Hload.
  { rewrite (initializeInstruments_null f disk Hload) in Hstart. discriminate. }
  destruct (initializeInstruments_object f disk entries Hload)
    as (w0 & Hw0 & Hlisted & Hunlisted & _ & _ & Htimers).
  rewrite Hstart in Hw0. injection Hw0 as <-.
  split; [|split].
  - intros s. unfold pending. rewrite Htimers.
    destruct (symbol_listed s) as [Hin|Hout].
    + rewrite (Hlisted s Hin). reflexivity.
    + rewrite (Hunlisted s Hout). reflexivity.
  - intros s i. destruct (symbol_listed s) as [Hin|Hout].
    + rewrite (Hlisted s Hin). intros [= <-]. simpl. lia.
    + rewrite (Hunlisted s Hout). discriminate.
  - intros s. destruct (symbol_listed s) as [Hin|Hout].
    + rewrite (Hlisted s Hin). split; [intros _; exact Hin | intros _; eexists; reflexivity].
    + rewrite (Hunlisted s Hout). split; [intros [i Hi]; discriminate | contradiction].
Qed.

Lemma expected_known (w : world) (e : event) :
  (forall symbol,
     is_Some (instruments w !! symbol) <-> In symbol (map fst VOLATILITY_INDEXES)) ->
  expected e -> known w e.
Proof.
  intros Hdom. destruct e as [tick now|symbol|symbol]; simpl.
  - intros Hown. right. exact Hown.
  - tauto.
  - apply Hdom.
Qed.

(** A tick named after an inherited property of the registry throws. *)
Lemma handleTick_inherited (tick : Tick.t) (now : Z) (w : world) :
  instruments w !! Tick.symbol tick = None ->
  inherited (Tick.symbol tick) = true ->
  handleTick tick now w = None.
Proof. intros Hi Hown. unfold handleTick. rewrite Hi, Hown. reflexivity. Qed.

(** X13.  Started from a weights file that does not hold null (no file,
    an unreadable file, or a snapshot of weight sets), the engine
    handles without a throw every sequence of ticks whose symbol is not
    the name of a property the registry inherits, of deferred
    evaluations, and of learning steps on configured symbols.  In every
    state it reaches, a signal is open exactly while one deferred
    evaluation is pending for its instrument (never two), every
    history holds at most 155 prices, and the registered symbols are
    those of the start.  A tick whose symbol is the name of an
    inherited property, such as constructor, throws in any state the
    engine reaches. *)
Theorem engine_never_throws (f : weights_file) (disk : write_outcome)
    (events : list event) :
  f <> NullFile ->
  Forall expected events ->
  exists w0 w',
    initializeInstruments (boot f disk) = Some w0
    /\ run events w0 = Some w'
    /\ lifecycle_ok w' /\ history_ok w' /\ same_symbols w0 w'
    /\ forall name z now,
         inherited name = true -> handleTick (Tick.mk name z) now w' = None.
Proof.
  intros Hf Hexpected.
  destruct (loadWeights_object f Hf) as [entries Hload].
  destruct (initializeInstruments_object f disk entries Hload) as (w0 & Hstart & _).
  destruct (initial_lifecycle f disk w0 Hstart) as (Hlife & Hhist & Hdom).
  assert (Hknown : Forall (known w0) events).
  { eapply Forall_impl; [exact Hexpected|]. intros e. apply expected_known, Hdom. }
  destruct (run_safe events w0 Hlife Hhist Hknown) as (w' & Hrun & Hlife' & Hhist' & Hsame).
  exists w0, w'. repeat (split; [assumption|]).
  intros name z now Hown. apply handleTick_inherited; [|exact Hown].
  cbn [Tick.symbol]. apply eq_None_not_Some. intros Hsome.
  apply Hsame, Hdom, configured_not_inherited in Hsome. congruence.
Qed.

Lemma engine_never_throws_witness :
  let events := [Arrives (Tick.mk "1HZ10V" (Num 9876.54)) 0; Fires "1HZ10V";
                 Learns "1HZ10V"; Arrives (Tick.mk "unknown" NaN) 1] in
  NoFile <> NullFile
  /\ Forall expected events
  /\ exists w0 w',
       initializeInstruments (boot NoFile Written) = Some w0
       /\ run events w0 = Some w'
       /\ lifecycle_ok w' /\ history_ok w' /\ same_symbols w0 w'
       /\ forall name z now,
            inherited name = true -> handleTick (Tick.mk name z) now w' = None.
Proof.
  intros events.
  assert (Hf : NoFile <> NullFile) by discriminate.
  assert (Hexpected : Forall expected events).
  { constructor; [reflexivity|]. constructor; [exact I|].
    constructor; [simpl; tauto|]. constructor; [reflexivity|].
    constructor. }
  split; [exact Hf|]. split; [exact Hexpected|].
  exact (engine_never_throws NoFile Written events Hf Hexpected).
Defined.

(** ** Persistence *)

Lemma reread_finite (v : number) : is_finite v = true -> reread v = v.
Proof. unfold reread. intros ->. reflexivity. Qed.

Lemma rereadAll_finite (w : Weights.t) : all_finite w -> rereadAll w = w.
Proof.
  intros Hw. destruct w as [a b c]. unfold rereadAll. cbn [Weights.ldf Weights.recency Weights.pf].
  rewrite (reread_finite a (Hw LDF)), (reread_finite b (Hw RECENCY)),
    (reread_finite c (Hw PF)).
  reflexivity.
Qed.

(** X15.  A learning step on an open signal saves the weights of all
    instruments.  When the write succeeds, a restart from the file it
    leaves does not throw and gives every configured instrument the
    weights it had after the step as JSON carries them: the same
    weights when they are finite, and 0 in the place of a weight that
    is NaN or infinite.  When the write is refused the file is left as
    it was.  When the write fails after truncating the file, a restart
    gives every configured instrument the initial weights. *)
Theorem weights_survive_restart (symbol : string) (w w1 : world)
    (i : instrument) (signal : Signal.t) (disk' : write_outcome) :
  instruments w !! symbol = Some i ->
  activeSignal i = Some signal ->
  backtestAndLearn symbol w = Some w1 ->
  match disk w with
  | Written =>
      exists w2,
        initializeInstruments (boot (file w1) disk') = Some w2
        /\ forall s i1,
             In s (map fst VOLATILITY_INDEXES) ->
             instruments w1 !! s = Some i1 ->
             exists j,
               instruments w2 !! s = Some j
               /\ weights j = rereadAll (weights i1)
               /\ (all_finite (weights i1) -> weights j = weights i1)
  | Refused => file w1 = file w
  | Truncated =>
      exists w2,
        initializeInstruments (boot (file w1) disk') = Some w2
        /\ forall s,
             In s (map fst VOLATILITY_INDEXES) ->
             exists j,
               instruments w2 !! s = Some j /\ weights j = INITIAL_WEIGHTS
  end.
Proof.
  intros Hi Hs. unfold backtestAndLearn. rewrite Hi, Hs.
  destruct (last (priceHistory i)) as [finalPrice|]; [|discriminate].
  destruct (learn signal (lastDigitOf finalPrice) (weights i)) as [weights'|];
    [|discriminate].
  intros [= <-]. unfold saveWeights. cbn [disk with_instrument].
  destruct (disk w); [| reflexivity |].
  - cbn [file instruments].
    set (content := rereadAll <$> (weights <$> <[symbol := with_weights weights' i]> (instruments w))).
    destruct (initializeInstruments_object (Snapshot content) disk' content eq_refl)
      as (w2 & Hstart & Hlisted & _).
    exists w2. split; [exact Hstart|].
    intros s i1 Hin Hi1.
    eexists. split; [apply Hlisted, Hin|].
    cbn [instruments with_instrument] in Hi1.
    cbn [weights]. subst content. rewrite !lookup_fmap, Hi1.
    cbn [fmap option_fmap option_map default].
    split; [reflexivity|]. intros Hfin. apply rereadAll_finite, Hfin.
  - cbn [file instruments].
    destruct (initializeInstruments_object Unreadable disk' ∅ eq_refl)
      as (w2 & Hstart & Hlisted & _).
    exists w2. split; [exact Hstart|].
    intros s Hin. eexists. split; [apply Hlisted, Hin|].
    cbn [weights]. rewrite lookup_empty. reflexivity.
Qed.

Lemma weights_survive_restart_witness :
  let s := "1HZ100V"%string in
  let captured :=
    Scores.mk (map of_Z [3; 3; 3; 12; 3; 3; 3; 0; 3; 3]%Z)
              (map of_Z [5; 4; 3; 100; 2; 1; 9; 0; 8; 7]%Z)
              (map of_Z [0; 0; 0; 0; 30; 0; 0; 15; 0; 0]%Z) in
  let signal := Signal.mk 3 captured 0 in
  let i0 := mkInstrument s [Num 100.07] (Kalman.mk (Some (Num 100.07)) (Num 1))
                         INITIAL_WEIGHTS (Some signal) 0 None in
  let idle := mkInstrument "1HZ10V" [] (Kalman.mk None (Num 1))
                           (Weights.mk PosInf (Num 1) (Num 1)) None 0 None in
  let w := mkWorld {[ s := i0; "1HZ10V"%string := idle ]} NoFile Written [] [] in
  let w1 := default w (backtestAndLearn s w) in
  instruments w !! s = Some i0
  /\ activeSignal i0 = Some signal
  /\ backtestAndLearn s w = Some w1
  /\ exists w2,
       initializeInstruments (boot (file w1) Refused) = Some w2
       /\ forall s' i1,
            In s' (map fst VOLATILITY_INDEXES) ->
            instruments w1 !! s' = Some i1 ->
            exists j,
              instruments w2 !! s' = Some j
              /\ weights j = rereadAll (weights i1)
              /\ (all_finite (weights i1) -> weights j = weights i1).
Proof.
  intros s captured signal i0 idle w w1.
  assert (Hi : instruments w !! s = Some i0) by (vm_compute; reflexivity).
  assert (Hs : activeSignal i0 = Some signal) by reflexivity.
  assert (Hb : backtestAndLearn s w = Some w1) by (vm_compute; reflexivity).
  split; [exact Hi|]. split; [exact Hs|]. split; [exact Hb|].
  exact (weights_survive_restart s w w1 i0 signal Refused Hi Hs Hb).
Defined.

(** ** What a tick broadcasts *)

(** X16.  A tick for a registered instrument broadcasts its tick message
    first.  While a signal is open nothing else is sent and no
    evaluation is scheduled; otherwise the analysis sends exactly one
    more message, a status, or a signal together with the scheduling
    of its evaluation. *)
Theorem tick_messages (tick : Tick.t) (now : Z) (w : world) (i : instrument) :
  instruments w !! Tick.symbol tick = Some i ->
  let symbol := Tick.symbol tick in
  exists w' rest,
    handleTick tick now w = Some w'
    /\ sent w' = sent w ++ TickMsg symbol (lastDigitOf (Tick.quote tick)) :: rest
    /\ match activeSignal i with
       | Some _ => rest = [] /\ timers w' = timers w
       | None =>
           (exists reason,
              rest = [StatusMsg symbol "ANALYZING" reason]
              /\ timers w' = timers w)
           \/ (exists d c t,
                 rest = [SignalMsg symbol d c t]
                 /\ timers w' = timers w ++ [symbol])
       end.
Proof.
  intros Hi symbol. rewrite (handleTick_unfold tick now w i Hi).
  set (w2 := broadcast _ _).
  assert (Hi2 : instruments w2 !! Tick.symbol tick = Some (ticked tick i))
    by (subst w2; cbn [instruments broadcast with_instrument]; apply lookup_insert_eq).
  destruct (ticked_fields tick i) as (_ & Hs & _ & _).
  destruct (runAnalysis_outcome (Tick.symbol tick) now w2 (ticked tick i) Hi2)
    as [[Hopen ->]|[[Hnone [reason ->]]|[Hnone (d & c & t & s & _ & ->)]]];
    rewrite Hs in *.
  - exists w2, []. split; [reflexivity|]. split; [reflexivity|].
    destruct (activeSignal i); [split; reflexivity | contradiction].
  - eexists. exists [StatusMsg symbol "ANALYZING" reason].
    split; [reflexivity|]. rewrite Hnone. split.
    + subst w2. cbn [sent broadcast with_instrument].
      rewrite <- app_assoc. reflexivity.
    + left. exists reason. split; reflexivity.
  - eexists. exists [SignalMsg symbol d c t].
    split; [reflexivity|]. rewrite Hnone. split.
    + subst w2. cbn [sent setTimeout broadcast with_instrument].
      rewrite <- app_assoc. reflexivity.
    + right. exists d, c, t. split; reflexivity.
Qed.

Lemma tick_messages_witness :
  let w := started in
  let tick := Tick.mk "1HZ25V" (Num 431.19) in
  let i := mkInstrument "1HZ25V" [] (Kalman.mk None (Num 1)) INITIAL_WEIGHTS
                        None 0 None in
  instruments w !! Tick.symbol tick = Some i
  /\ exists w' rest,
       handleTick tick 0 w = Some w'
       /\ sent w' = sent w ++ TickMsg "1HZ25V" (Some 9%nat) :: rest
       /\ ((exists reason,
              rest = [StatusMsg "1HZ25V" "ANALYZING" reason]
              /\ timers w' = timers w)
           \/ (exists d c t,
                 rest = [SignalMsg "1HZ25V" d c t]
                 /\ timers w' = timers w ++ ["1HZ25V"%string])).
Proof.
  intros w tick i.
  assert (Hi : instruments w !! Tick.symbol tick = Some i)
    by (vm_compute; reflexivity).
  split; [exact Hi|].
  exact (tick_messages tick 0 w i Hi).
Defined.
